(** * HotStuff consensus transport over libp2p

    A shallow embedding of the [transport] type of package [hotstuff]
    ([newTransport], [Broadcast], [SendTo], [ReceiveCh], [P2PHandler]) and
    the properties of its fan-out, loopback, validation, failure and
    cancellation behaviour.

    The Go code runs in a goroutine next to a consumer draining the
    receive channel and next to whoever cancels the context.  The
    embedding is a state-and-outcome monad over a [World] that holds the
    channel heap, the context store, the trace of what the transport did
    and the script of what the other goroutines do. *)

From Stdlib Require Import ZArith Lia.
From stdpp Require Import base list strings.

Set Default Proof Using "Type".
Open Scope Z_scope.
Open Scope nat_scope.

(** ** Identities and errors *)

(** [peer.ID] of libp2p is a string type. *)
Abbreviation PeerID := string (only parsing).

(** [p2p.Peer]: the transport reads its [ID] field only. *)
Record Peer := mkPeer { ID : PeerID }.

(** [host.Host]: the transport calls its [ID()] method only. *)
Record Host := mkHost { host_ID : PeerID }.

(** The two errors a [context.Context] can report from [Err()]. *)
Inductive CtxErr := Canceled | DeadlineExceeded.

(** Go [error] values met by the transport; a nil error is [None]. *)
Inductive Err :=
| errors_New (text : string)
| errors_Wrap (cause : Err) (text : string)
| ctx_error (c : CtxErr)
| host_error (text : string).

(** References into the channel heap and the context store. *)
Abbreviation ChanRef := nat (only parsing).
Abbreviation Ctx := nat (only parsing).

(** Modelled from the spec: [hs.ID] and its [ToIndex] method, declared
    outside the sources at hand.  The identity is "a small positive
    integer, 1-based" with "index = ID - 1"; it is taken as a
    mathematical integer, so the conversion [int(id)] of [SendTo] keeps
    the value. *)
Abbreviation HsID := Z (only parsing).
Definition ToIndex (id : HsID) : Z := (id - 1)%Z.

Definition msgBufferSize : nat := 16.

Section Transport.

(** [*hs.Msg] and [*pbv1.HotStuffMsg] with the two conversions between
    them, and the protocol identifier, are declared outside the file that
    is verified: they are parameters of the development. *)
Context {Msg ProtoMsg : Type}.
Variable ToProto : Msg → ProtoMsg.
Variable ProtoToMsg : ProtoMsg → Msg.
Variable HotStuffv1ProtocolID : string.

(** ** The world *)

(** A buffered channel of [*hs.Msg]: [make(chan *hs.Msg, cap)]. *)
Record Chan := mkChan { cap : nat; buf : list Msg }.

(** What the transport did, oldest first. *)
Inductive Event :=
| EvToProto (m : Msg)
| EvSendAsync (ctx : Ctx) (from : PeerID) (protocol : string)
              (to : PeerID) (payload : ProtoMsg)
| EvEnqueue (c : ChanRef) (m : Msg).

(** What the other goroutines do, in the order they do it.

    [EnvRecv c]: the consumer receives the head of channel [c].
    [EnvCancel ctx e]: context [ctx] is cancelled with [e].
    [EnvSched tie]: the goroutine of the transport reaches its [select]
    now; [tie] tells which case the runtime picks if both can proceed
    ([true]: the [ctx.Done()] case).

    The script holds the consumer and the party that cancels.  A send by
    another goroutine on the same channel is not an event of it: what is
    stated for every script is stated for a call that is the only sender
    on its channel while it runs. *)
Inductive EnvEv :=
| EnvRecv (c : ChanRef)
| EnvCancel (ctx : Ctx) (e : CtxErr)
| EnvSched (tie : bool).

Record World := mkWorld {
  chans : list Chan;
  ctxs : list (option CtxErr);
  log : list Event;
  env : list EnvEv
}.

Definition set_chans (cs : list Chan) (w : World) : World :=
  mkWorld cs (ctxs w) (log w) (env w).
Definition set_ctxs (xs : list (option CtxErr)) (w : World) : World :=
  mkWorld (chans w) xs (log w) (env w).
Definition set_env (es : list EnvEv) (w : World) : World :=
  mkWorld (chans w) (ctxs w) (log w) es.
Definition emit (e : Event) (w : World) : World :=
  mkWorld (chans w) (ctxs w) (log w ++ [e]) (env w).

(** [ctx.Err()]: a context outside the store is never cancelled
    ([context.Background()]). *)
Definition ctx_Err (ctx : Ctx) (w : World) : option CtxErr :=
  match ctxs w !! ctx with
  | Some st => st
  | None => None
  end.

(** The first cancellation of a context is the one it keeps. *)
Definition cancel (ctx : Ctx) (e : CtxErr) (w : World) : World :=
  match ctxs w !! ctx with
  | Some None => set_ctxs (<[ctx := Some e]> (ctxs w)) w
  | _ => w
  end.

Definition pop (ch : Chan) : Chan := mkChan (cap ch) (tail (buf ch)).
Definition push (m : Msg) (ch : Chan) : Chan := mkChan (cap ch) (buf ch ++ [m]).

Definition env_apply (e : EnvEv) (w : World) : World :=
  match e with
  | EnvRecv c => set_chans (alter pop c (chans w)) w
  | EnvCancel ctx err => cancel ctx err w
  | EnvSched _ => w
  end.

(** ** Outcomes and the monad of the transport's methods *)

Inductive Res (A : Type) :=
| Ret (a : A) (w : World)
| Block (w : World)
| Panic (w : World).
Arguments Ret {A} a w.
Arguments Block {A} w.
Arguments Panic {A} w.

Definition M (A : Type) := World → Res A.

Definition ret {A} (a : A) : M A := fun w => Ret a w.
Definition bind {A B} (m : M A) (k : A → M B) : M B :=
  fun w => match m w with
           | Ret a w' => k a w'
           | Block w' => Block w'
           | Panic w' => Panic w'
           end.
Definition panic {A} : M A := fun w => Panic w.

Notation "x <~ m ;; k" := (bind m (fun x => k))
  (at level 100, m at next level, right associativity).

Definition world_of {A} (r : Res A) : World :=
  match r with Ret _ w | Block w | Panic w => w end.

(** ** Channel send under [select] with [ctx.Done()] *)

(** The send case can proceed when the buffer has room; a send on a
    reference with no channel behind it (a nil channel) never can. *)
Definition send_ready (c : ChanRef) (w : World) : bool :=
  match chans w !! c with
  | Some ch => bool_decide (length (buf ch) < cap ch)
  | None => false
  end.

Definition enqueue (c : ChanRef) (m : Msg) (w : World) : World :=
  emit (EvEnqueue c m) (set_chans (alter (push m) c (chans w)) w).

(** One look at the two cases: [None] when neither can proceed. *)
Definition resolve (c : ChanRef) (ctx : Ctx) (m : Msg) (tie : bool) (w : World)
  : option (Res (option Err)) :=
  match send_ready c w, ctx_Err ctx w with
  | true, None => Some (Ret None (enqueue c m w))
  | false, Some e => Some (Ret (Some (ctx_error e)) w)
  | true, Some e =>
      Some (if tie then Ret (Some (ctx_error e)) w else Ret None (enqueue c m w))
  | false, None => None
  end.

(** The goroutine is parked in the [select]: the first event that lets a
    case proceed decides; when the others never act again it stays
    parked. *)
Fixpoint parked (c : ChanRef) (ctx : Ctx) (m : Msg) (es : list EnvEv) (w : World)
  : Res (option Err) :=
  match es with
  | [] => Block (set_env [] w)
  | e :: es' =>
      let w1 := env_apply e w in
      match resolve c ctx m false (set_env es' w1) with
      | Some r => r
      | None => parked c ctx m es' w1
      end
  end.

(** Events before the goroutine reaches the [select] take effect first;
    at [EnvSched] (or when the script is over) the cases are looked at. *)
Fixpoint select_run (c : ChanRef) (ctx : Ctx) (m : Msg) (es : list EnvEv) (w : World)
  : Res (option Err) :=
  match es with
  | [] =>
      match resolve c ctx m false (set_env [] w) with
      | Some r => r
      | None => Block (set_env [] w)
      end
  | EnvSched tie :: es' =>
      match resolve c ctx m tie (set_env es' w) with
      | Some r => r
      | None => parked c ctx m es' w
      end
  | e :: es' => select_run c ctx m es' (env_apply e w)
  end.

(** [select { case c <- m: ; case <-ctx.Done(): return ctx.Err() }],
    returning the error of the second case. *)
Definition select_send (c : ChanRef) (ctx : Ctx) (m : Msg) : M (option Err) :=
  fun w => select_run c ctx m (env w) w.

(** ** The sender *)

(** [*p2p.Sender]: [SendAsync] belongs to another package; what it
    answers is a parameter that may depend on everything observable. *)
Record Sender := mkSender {
  reply : World → Ctx → Host → string → PeerID → ProtoMsg → option Err
}.

Definition SendAsync (s : Sender) (ctx : Ctx) (h : Host) (protocol : string)
  (to : PeerID) (payload : ProtoMsg) : M (option Err) :=
  fun w => Ret (reply s w ctx h protocol to payload)
               (emit (EvSendAsync ctx (host_ID h) protocol to payload) w).

(** [msg.ToProto()], leaving a trace of the call. *)
Definition call_ToProto (msg : Msg) : M ProtoMsg :=
  fun w => Ret (ToProto msg) (emit (EvToProto msg) w).

(** ** The transport *)

Record transport := mkTransport {
  tcpNode : Host;
  sender : Sender;
  peers : list Peer;
  recvCh : ChanRef
}.

(** [make(chan *hs.Msg, msgBufferSize)] takes the next free reference. *)
Definition make_chan (n : nat) : M ChanRef :=
  fun w => Ret (length (chans w)) (set_chans (chans w ++ [mkChan n []]) w).

Definition newTransport (h : Host) (s : Sender) (ps : list Peer) : M transport :=
  c <~ make_chan msgBufferSize ;;
  ret (mkTransport h s ps c).

Definition is_local (t : transport) (peer : Peer) : bool :=
  bool_decide (host_ID (tcpNode t) = ID peer).

(** The [for _, peer := range t.peers] loop of [Broadcast]. *)
Fixpoint Broadcast_loop (t : transport) (ctx : Ctx) (msg : Msg) (protoMsg : ProtoMsg)
  (ps : list Peer) : M (option Err) :=
  match ps with
  | [] => ret None
  | peer :: rest =>
      if is_local t peer then
        done <~ select_send (recvCh t) ctx msg ;;
        match done with
        | Some e => ret (Some e)
        | None => Broadcast_loop t ctx msg protoMsg rest
        end
      else
        err <~ SendAsync (sender t) ctx (tcpNode t) HotStuffv1ProtocolID (ID peer) protoMsg ;;
        match err with
        | Some e => ret (Some (errors_Wrap e "failed to send message"))
        | None => Broadcast_loop t ctx msg protoMsg rest
        end
  end.

Definition Broadcast (t : transport) (ctx : Ctx) (msg : Msg) : M (option Err) :=
  protoMsg <~ call_ToProto msg ;;
  Broadcast_loop t ctx msg protoMsg (peers t).

Definition SendTo (t : transport) (ctx : Ctx) (id : HsID) (msg : Msg) : M (option Err) :=
  if ((id <? 1)%Z || (Z.of_nat (length (peers t)) <? id)%Z)%bool then
    ret (Some (errors_New "invalid peer ID"))
  else
    match peers t !! Z.to_nat (ToIndex id) with
    | None => panic
    | Some peer =>
        if is_local t peer then
          done <~ select_send (recvCh t) ctx msg ;;
          match done with
          | Some e => ret (Some e)
          | None => ret None
          end
        else
          protoMsg <~ call_ToProto msg ;;
          err <~ SendAsync (sender t) ctx (tcpNode t) HotStuffv1ProtocolID (ID peer) protoMsg ;;
          match err with
          | Some e => ret (Some (errors_Wrap e "failed to send message"))
          | None => ret None
          end
    end.

(** [<-chan *hs.Msg]: a handle that offers the receive operation only. *)
Record RecvChan := mkRecvChan { recv_ref : ChanRef }.

Definition ReceiveCh (t : transport) : RecvChan := mkRecvChan (recvCh t).

(** [<-h] by the consumer: the head of the buffer; on an empty buffer
    the consumer parks. *)
Definition chan_recv (h : RecvChan) : M Msg :=
  fun w => match chans w !! recv_ref h with
           | Some ch =>
               match buf ch with
               | m :: _ => Ret m (set_chans (alter pop (recv_ref h) (chans w)) w)
               | [] => Block w
               end
           | None => Block w
           end.

(** A [proto.Message] interface value as [P2PHandler] tells them apart:
    the nil interface, a [*pbv1.HotStuffMsg] (the pointer may be nil), or
    a value of another concrete type. *)
Inductive proto_Message :=
| nil_Message
| HotStuffMsg_ptr (p : option ProtoMsg)
| other_Message (kind : string).

(** The type assertion of [req] to a HotStuffMsg pointer, in its
    two-result form. *)
Definition assert_HotStuffMsg (req : proto_Message) : option ProtoMsg * bool :=
  match req with
  | HotStuffMsg_ptr p => (p, true)
  | _ => (None, false)
  end.

Definition P2PHandler (t : transport) (ctx : Ctx) (from : PeerID) (req : proto_Message)
  : M (option proto_Message * bool * option Err) :=
  let '(pbMsg, isValid) := assert_HotStuffMsg req in
  match isValid, pbMsg with
  | true, Some pb =>
      err <~ select_send (recvCh t) ctx (ProtoToMsg pb) ;;
      ret (None, false, err)
  | _, _ =>
      ret (None, false, Some (errors_New "received invalid HotStuff consensus message"))
  end.


(** ** What the other goroutines do to a world *)

Definition env_run (es : list EnvEv) (w : World) : World :=
  foldl (fun w e => env_apply e w) w es.

(** The script never cancels the context. *)
Definition never_cancelled (ctx : Ctx) (w : World) : Prop :=
  ctx_Err ctx w = None ∧ ∀ e, EnvCancel ctx e ∉ env w.

(** The buffer of channel [c] holds as many messages as it can. *)
Definition full (c : ChanRef) (w : World) : Prop :=
  ∃ ch, chans w !! c = Some ch ∧ cap ch ≤ length (buf ch).

(** The blocked enqueue that is cancelled: the buffer of [c] is full;
    during the part [pre] of the script the consumer takes nothing from
    it and the context comes to report [e]; and the goroutine is at its
    [select] by then, within [pre] or because nothing happens after. *)
Definition cancelled_while_full (c : ChanRef) (ctx : Ctx) (e : CtxErr) (w : World)
  : Prop :=
  full c w ∧
  ∃ pre post, env w = pre ++ post ∧
    (EnvRecv c ∉ pre) ∧
    ctx_Err ctx (env_run pre w) = Some e ∧
    (post = [] ∨ ∃ tie, EnvSched tie ∈ pre).

(** Channel [c] has room for [k] more messages. *)
Definition room (c : ChanRef) (k : nat) (w : World) : Prop :=
  ∃ ch, chans w !! c = Some ch ∧ length (buf ch) + k ≤ cap ch.


(** ** The trace a broadcast leaves *)

Definition send_event (t : transport) (ctx : Ctx) (payload : ProtoMsg) (peer : Peer)
  : Event :=
  EvSendAsync ctx (host_ID (tcpNode t)) HotStuffv1ProtocolID (ID peer) payload.

Definition peer_event (t : transport) (ctx : Ctx) (msg : Msg) (payload : ProtoMsg)
  (peer : Peer) : Event :=
  if is_local t peer then EvEnqueue (recvCh t) msg else send_event t ctx payload peer.



(** ** What the handler rejects and what the methods return *)

(** The requests the handler turns down: the nil interface, a nil
    pointer, a message of another concrete type. *)
Definition rejected (req : proto_Message) : bool :=
  match req with
  | HotStuffMsg_ptr (Some _) => false
  | _ => true
  end.

(** The error of a [select]: what [ctx.Err()] reports, as it is. *)
Definition verbatim (ctx : Ctx) (err : Err) (w' : World) : Prop :=
  ∃ e, err = ctx_error e ∧ ctx_Err ctx w' = Some e.

(** The error of a send: what the sender answered for some remote peer,
    wrapped. *)
Definition wrapped (t : transport) (ctx : Ctx) (payload : ProtoMsg) (ps : list Peer)
  (err : Err) (w' : World) : Prop :=
  ∃ e p w1, p ∈ ps ∧ is_local t p = false ∧
    reply (sender t) w1 ctx (tcpNode t) HotStuffv1ProtocolID (ID p) payload = Some e ∧
    err = errors_Wrap e "failed to send message" ∧
    w' = emit (send_event t ctx payload p) w1.

(** ** Compositions of the methods *)

(** A message handed to the transport for the local consumer: by a
    directed send, or by the network host through the handler. *)
Inductive Delivery :=
| Loopback (id : HsID) (msg : Msg)
| Inbound (from : PeerID) (pb : ProtoMsg).

Definition delivered (d : Delivery) : Msg :=
  match d with
  | Loopback _ msg => msg
  | Inbound _ pb => ProtoToMsg pb
  end.

(** The directed send goes to a position that carries the host's
    identity. *)
Definition to_self (t : transport) (d : Delivery) : Prop :=
  match d with
  | Loopback id _ =>
      (1 ≤ id ≤ Z.of_nat (length (peers t)))%Z ∧
      ∃ peer, peers t !! Z.to_nat (ToIndex id) = Some peer ∧ is_local t peer = true
  | Inbound _ _ => True
  end.

Definition deliver (t : transport) (ctx : Ctx) (d : Delivery) : M (option Err) :=
  match d with
  | Loopback id msg => SendTo t ctx id msg
  | Inbound from pb =>
      r <~ P2PHandler t ctx from (HotStuffMsg_ptr (Some pb)) ;;
      ret (snd r)
  end.

(** One call after the other, until one returns an error. *)
Fixpoint deliver_each (t : transport) (ctx : Ctx) (ds : list Delivery)
  : M (option Err) :=
  match ds with
  | [] => ret None
  | d :: rest =>
      err <~ deliver t ctx d ;;
      match err with
      | Some e => ret (Some e)
      | None => deliver_each t ctx rest
      end
  end.

(** The consumer receives [n] times. *)
Fixpoint drain (h : RecvChan) (n : nat) : M (list Msg) :=
  match n with
  | 0 => ret []
  | S n' =>
      m <~ chan_recv h ;;
      ms <~ drain h n' ;;
      ret (m :: ms)
  end.

(** ** Lemmas on the environment *)

Lemma env_run_cons e es w : env_run (e :: es) w = env_run es (env_apply e w).
Proof. done. Qed.

Lemma env_run_app es1 es2 w :
  env_run (es1 ++ es2) w = env_run es2 (env_run es1 w).
Proof. unfold env_run. apply foldl_app. Qed.

Lemma cancel_log ctx e w : log (cancel ctx e w) = log w.
Proof. unfold cancel. by repeat case_match. Qed.

Lemma cancel_env ctx e w : env (cancel ctx e w) = env w.
Proof. unfold cancel. by repeat case_match. Qed.

Lemma cancel_chans ctx e w : chans (cancel ctx e w) = chans w.
Proof. unfold cancel. by repeat case_match. Qed.

Lemma env_apply_log e w : log (env_apply e w) = log w.
Proof. destruct e; simpl; auto using cancel_log. Qed.

Lemma env_apply_env e w : env (env_apply e w) = env w.
Proof. destruct e; simpl; auto using cancel_env. Qed.

Lemma env_run_log es w : log (env_run es w) = log w.
Proof.
  revert w. induction es as [|e es IH]; intros w; simpl; [done|].
  by rewrite IH, env_apply_log.
Qed.

Lemma env_run_env es w : env (env_run es w) = env w.
Proof.
  revert w. induction es as [|e es IH]; intros w; simpl; [done|].
  by rewrite IH, env_apply_env.
Qed.

Lemma set_env_run es post w :
  env_run es (set_env post w) = set_env post (env_run es w).
Proof.
  revert w. induction es as [|e es IH]; intros w; simpl; [done|].
  rewrite <- IH. f_equal.
  destruct e; simpl; try done.
  unfold cancel; simpl. by repeat case_match.
Qed.

(** A cancelled context stays cancelled with the same error. *)
Lemma cancel_keeps ctx ctx' e e' w :
  ctx_Err ctx w = Some e → ctx_Err ctx (cancel ctx' e' w) = Some e.
Proof.
  unfold ctx_Err, cancel. intros H.
  destruct (ctxs w !! ctx') as [[c|]|] eqn:E; try done.
  simpl. destruct (decide (ctx = ctx')) as [->|Hne].
  - rewrite E in H. done.
  - by rewrite list_lookup_insert_ne.
Qed.

Lemma env_apply_keeps ctx e ev w :
  ctx_Err ctx w = Some e → ctx_Err ctx (env_apply ev w) = Some e.
Proof. destruct ev; simpl; auto using cancel_keeps. Qed.

Lemma env_run_keeps ctx e es w :
  ctx_Err ctx w = Some e → ctx_Err ctx (env_run es w) = Some e.
Proof.
  revert w. induction es as [|ev es IH]; intros w H; simpl; [done|].
  apply IH. by apply env_apply_keeps.
Qed.

Lemma cancel_other ctx ctx' e' w :
  ctx ≠ ctx' → ctx_Err ctx (cancel ctx' e' w) = ctx_Err ctx w.
Proof.
  unfold ctx_Err, cancel. intros Hne.
  destruct (ctxs w !! ctx') as [[c|]|] eqn:E; try done.
  simpl. by rewrite list_lookup_insert_ne.
Qed.

Lemma env_run_not_cancelled ctx es w :
  ctx_Err ctx w = None → (∀ e, EnvCancel ctx e ∉ es) →
  ctx_Err ctx (env_run es w) = None.
Proof.
  revert w. induction es as [|ev es IH]; intros w H Hno; simpl; [done|].
  apply IH.
  - destruct ev as [c|ctx' e'|tie]; simpl; try done.
    rewrite cancel_other; [done|]. intros ->.
    apply (Hno e'). left.
  - intros e Hin. apply (Hno e). by right.
Qed.

(** Altering a channel in place never changes any capacity. *)
Lemma alter_caps (f : Chan → Chan) c (cs : list Chan) :
  (∀ ch, cap (f ch) = cap ch) → cap <$> alter f c cs = cap <$> cs.
Proof.
  intros Hf. rewrite (list_fmap_alter cap f id).
  - by apply list_alter_id.
  - by apply Forall_forall.
Qed.

Lemma env_apply_caps e w : cap <$> chans (env_apply e w) = cap <$> chans w.
Proof.
  destruct e; simpl; [|by rewrite cancel_chans|done].
  by apply alter_caps.
Qed.

Lemma env_run_caps es w : cap <$> chans (env_run es w) = cap <$> chans w.
Proof.
  revert w. induction es as [|e es IH]; intros w; simpl; [done|].
  by rewrite IH, env_apply_caps.
Qed.


Lemma env_run_no_chan es c w :
  chans w !! c = None → chans (env_run es w) !! c = None.
Proof.
  intros H. apply lookup_ge_None. apply lookup_ge_None in H.
  assert (length (chans (env_run es w)) = length (chans w)) as ->; [|done].
  rewrite <- (length_fmap cap), env_run_caps. by rewrite length_fmap.
Qed.

(** When the consumer does not receive from [c], its buffer stays. *)
Lemma env_run_untouched es c w :
  EnvRecv c ∉ es → chans (env_run es w) !! c = chans w !! c.
Proof.
  revert w. induction es as [|e es IH]; intros w Hno; simpl; [done|].
  rewrite IH by (intros Hin; apply Hno; by right).
  destruct e as [c'|ctx' e'|tie]; simpl; [|by rewrite cancel_chans|done].
  apply list_lookup_alter_ne. intros ->. apply Hno. left.
Qed.

(** ** Lemmas on [select] *)

Lemma send_ready_set_env c es w : send_ready c (set_env es w) = send_ready c w.
Proof. done. Qed.

Lemma ctx_Err_set_env ctx es w : ctx_Err ctx (set_env es w) = ctx_Err ctx w.
Proof. done. Qed.

(** The three ways a [select] can end, in terms of the part [pre] of the
    script that went by and the part [post] that is left. *)
Inductive select_ends (c : ChanRef) (ctx : Ctx) (m : Msg) (es : list EnvEv) (w : World)
  : Res (option Err) → Prop :=
| ends_sent pre post :
    es = pre ++ post →
    send_ready c (env_run pre w) = true →
    select_ends c ctx m es w (Ret None (enqueue c m (set_env post (env_run pre w))))
| ends_done pre post e :
    es = pre ++ post →
    ctx_Err ctx (env_run pre w) = Some e →
    select_ends c ctx m es w (Ret (Some (ctx_error e)) (set_env post (env_run pre w)))
| ends_parked :
    send_ready c (env_run es w) = false →
    ctx_Err ctx (env_run es w) = None →
    select_ends c ctx m es w (Block (set_env [] (env_run es w))).

Lemma select_ends_cons c ctx m e es w r :
  select_ends c ctx m es (env_apply e w) r → select_ends c ctx m (e :: es) w r.
Proof.
  intros H. destruct H as [pre post Hes Hr|pre post e' Hes Hc|Hr Hc].
  - apply (ends_sent c ctx m _ w (e :: pre) post); [by rewrite Hes|done].
  - apply (ends_done c ctx m _ w (e :: pre) post); [by rewrite Hes|done].
  - by apply (ends_parked c ctx m (e :: es) w).
Qed.

Lemma resolve_ends c ctx m tie post w r :
  resolve c ctx m tie (set_env post w) = Some r →
  select_ends c ctx m post w r.
Proof.
  unfold resolve. rewrite send_ready_set_env, ctx_Err_set_env.
  destruct (send_ready c w) eqn:Hr, (ctx_Err ctx w) as [e|] eqn:Hc;
    try destruct tie; intros [= <-].
  all: first [ by apply (ends_done c ctx m post w [] post)
             | by apply (ends_sent c ctx m post w [] post) ].
Qed.

Lemma resolve_none c ctx m tie w :
  resolve c ctx m tie w = None → send_ready c w = false ∧ ctx_Err ctx w = None.
Proof.
  unfold resolve.
  destruct (send_ready c w), (ctx_Err ctx w); try destruct tie; by intros.
Qed.

Lemma parked_ends c ctx m es w :
  send_ready c w = false → ctx_Err ctx w = None →
  select_ends c ctx m es w (parked c ctx m es w).
Proof.
  revert w. induction es as [|e es IH]; intros w Hr Hc; simpl.
  - by apply ends_parked.
  - apply select_ends_cons.
    destruct (resolve c ctx m false (set_env es (env_apply e w))) eqn:E.
    + by apply resolve_ends in E.
    + apply resolve_none in E as [E1 E2]. by apply IH.
Qed.

Lemma select_run_ends c ctx m es w :
  select_ends c ctx m es w (select_run c ctx m es w).
Proof.
  revert w. induction es as [|e es IH]; intros w; simpl.
  - destruct (resolve c ctx m false (set_env [] w)) eqn:E.
    + by apply resolve_ends in E.
    + apply resolve_none in E as [E1 E2]. by apply ends_parked.
  - destruct e as [c'|ctx' e'|tie]; try (apply select_ends_cons; apply IH).
    destruct (resolve c ctx m tie (set_env es w)) eqn:E.
    + apply resolve_ends in E. by apply select_ends_cons.
    + apply resolve_none in E as [E1 E2].
      apply select_ends_cons. by apply parked_ends.
Qed.

Lemma select_send_ends c ctx m w :
  select_ends c ctx m (env w) w (select_send c ctx m w).
Proof. apply select_run_ends. Qed.

(** A [select] never panics. *)
Lemma select_send_no_panic c ctx m w w' : select_send c ctx m w ≠ Panic w'.
Proof. intros E. pose proof (select_send_ends c ctx m w) as H. rewrite E in H. inversion H. Qed.

(** A [select] that sent logged the enqueue, after the messages the
    consumer had left in the buffer. *)
Lemma select_send_sent c ctx m w w' :
  select_send c ctx m w = Ret None w' →
  log w' = log w ++ [EvEnqueue c m] ∧
  ∃ pre post, env w = pre ++ post ∧ send_ready c (env_run pre w) = true ∧
              w' = enqueue c m (set_env post (env_run pre w)).
Proof.
  intros E. pose proof (select_send_ends c ctx m w) as H. rewrite E in H.
  inversion H as [pre post Hes Hr Hw| |]; subst.
  split; [simpl; by rewrite env_run_log|]. by exists pre, post.
Qed.

(** A [select] that returned an error returned what [ctx.Err()] reports,
    as it is, and did nothing of its own to the world. *)
Lemma select_send_err c ctx m w err w' :
  select_send c ctx m w = Ret (Some err) w' →
  ∃ e pre post, err = ctx_error e ∧ ctx_Err ctx w' = Some e ∧
                env w = pre ++ post ∧ w' = set_env post (env_run pre w).
Proof.
  intros E. pose proof (select_send_ends c ctx m w) as H. rewrite E in H.
  inversion H as [|pre post e Hes Hc Hw|]; subst.
  by exists e, pre, post.
Qed.

Lemma select_send_caps c ctx m w :
  cap <$> chans (world_of (select_send c ctx m w)) = cap <$> chans w.
Proof.
  destruct (select_send_ends c ctx m w) as [pre post Hes Hr|pre post e Hes Hc|Hr Hc];
    simpl; rewrite ?alter_caps by done; apply env_run_caps.
Qed.




(** With the buffer full, the consumer away and the context cancelled
    while the goroutine is at its [select], the [select] returns the
    context's error and leaves the buffer and the trace as they were. *)
Lemma full_stays c ev w :
  ev ≠ EnvRecv c → full c w → full c (env_apply ev w).
Proof.
  intros Hne (ch & Hch & Hlen). exists ch. split; [|done].
  destruct ev as [c'|ctx' e'|tie]; simpl; [|by rewrite cancel_chans|done].
  rewrite list_lookup_alter_ne; [done|]. by intros ->.
Qed.

Lemma full_not_ready c w : full c w → send_ready c w = false.
Proof.
  intros (ch & Hch & Hlen). unfold send_ready. rewrite Hch.
  apply bool_decide_eq_false. lia.
Qed.

Lemma resolve_full c ctx m tie w :
  full c w →
  resolve c ctx m tie w =
  match ctx_Err ctx w with
  | Some e => Some (Ret (Some (ctx_error e)) w)
  | None => None
  end.
Proof. intros H. unfold resolve. by rewrite (full_not_ready c w H). Qed.

Lemma parked_cancelled c ctx m e pre post w :
  full c w → ctx_Err ctx w = None →
  EnvRecv c ∉ pre → ctx_Err ctx (env_run pre w) = Some e →
  ∃ w', parked c ctx m (pre ++ post) w = Ret (Some (ctx_error e)) w' ∧
        chans w' !! c = chans w !! c ∧ log w' = log w ∧ ctx_Err ctx w' = Some e.
Proof.
  revert w. induction pre as [|ev pre IH]; intros w Hfull Hc Hno Hfire.
  - simpl in Hfire. by rewrite Hc in Hfire.
  - simpl. rewrite env_run_cons in Hfire.
    assert (ev ≠ EnvRecv c) as Hne by (intros ->; apply Hno; left).
    assert (EnvRecv c ∉ pre) as Hno' by (intros Hin; apply Hno; by right).
    pose proof (full_stays c ev w Hne Hfull) as Hfull1.
    assert (chans (env_apply ev w) !! c = chans w !! c) as Hsame.
    { destruct ev as [c'|ctx' e'|tie]; simpl; [|by rewrite cancel_chans|done].
      apply list_lookup_alter_ne. by intros ->. }
    rewrite resolve_full by done. rewrite ctx_Err_set_env.
    destruct (ctx_Err ctx (env_apply ev w)) as [e'|] eqn:Hc1.
    + rewrite (env_run_keeps ctx e' pre _ Hc1) in Hfire. injection Hfire as ->.
      eexists. split; [done|]. simpl. by rewrite env_apply_log.
    + destruct (IH (env_apply ev w) Hfull1 Hc1 Hno' Hfire) as (w' & E & H1 & H2 & H3).
      exists w'. split; [done|]. by rewrite H1, H2, env_apply_log.
Qed.

Lemma select_run_cancelled c ctx m e pre post w :
  full c w → EnvRecv c ∉ pre → ctx_Err ctx (env_run pre w) = Some e →
  (post = [] ∨ ∃ tie, EnvSched tie ∈ pre) →
  ∃ w', select_run c ctx m (pre ++ post) w = Ret (Some (ctx_error e)) w' ∧
        chans w' !! c = chans w !! c ∧ log w' = log w ∧ ctx_Err ctx w' = Some e.
Proof.
  revert w. induction pre as [|ev pre IH]; intros w Hfull Hno Hfire Hat.
  - destruct Hat as [->|[tie Hin]]; [|by apply elem_of_nil in Hin].
    simpl in *. rewrite resolve_full by done. rewrite ctx_Err_set_env, Hfire.
    by eexists.
  - rewrite env_run_cons in Hfire.
    assert (ev ≠ EnvRecv c) as Hne by (intros ->; apply Hno; left).
    assert (EnvRecv c ∉ pre) as Hno' by (intros Hin; apply Hno; by right).
    pose proof (full_stays c ev w Hne Hfull) as Hfull1.
    assert (chans (env_apply ev w) !! c = chans w !! c) as Hsame.
    { destruct ev as [c'|ctx' e'|tie]; simpl; [|by rewrite cancel_chans|done].
      apply list_lookup_alter_ne. by intros ->. }
    destruct ev as [c'|ctx' e'|tie].
    + assert (post = [] ∨ ∃ tie', EnvSched tie' ∈ pre) as Hat'.
      { destruct Hat as [?|[tie' Hin]]; [by left|]. right.
        apply elem_of_cons in Hin as [Heq|Hin]; [discriminate|by exists tie']. }
      destruct (IH _ Hfull1 Hno' Hfire Hat') as (w' & E & H1 & H2 & H3).
      exists w'. split; [exact E|]. by rewrite H1, H2, Hsame, env_apply_log.
    + assert (post = [] ∨ ∃ tie', EnvSched tie' ∈ pre) as Hat'.
      { destruct Hat as [?|[tie' Hin]]; [by left|]. right.
        apply elem_of_cons in Hin as [Heq|Hin]; [discriminate|by exists tie']. }
      destruct (IH _ Hfull1 Hno' Hfire Hat') as (w' & E & H1 & H2 & H3).
      exists w'. split; [exact E|]. by rewrite H1, H2, Hsame, env_apply_log.
    + simpl in *. rewrite resolve_full by done. rewrite ctx_Err_set_env.
      destruct (ctx_Err ctx w) as [e'|] eqn:Hc.
      * rewrite (env_run_keeps ctx e' pre _ Hc) in Hfire. injection Hfire as ->.
        by eexists.
      * by apply parked_cancelled.
Qed.

Lemma select_send_cancelled c ctx m e w :
  cancelled_while_full c ctx e w →
  ∃ w', select_send c ctx m w = Ret (Some (ctx_error e)) w' ∧
        chans w' !! c = chans w !! c ∧ log w' = log w ∧
        ctx_Err ctx w' = Some e.
Proof.
  intros (Hfull & pre & post & Hes & Hno & Hfire & Hat).
  unfold select_send. rewrite Hes. by apply select_run_cancelled.
Qed.

(** ** Lemmas on the broadcast loop *)

Section Loop.
Variables (t : transport) (ctx : Ctx) (msg : Msg) (payload : ProtoMsg).

Local Abbreviation loop := (Broadcast_loop t ctx msg payload).

Lemma peer_event_local p :
  is_local t p = true → peer_event t ctx msg payload p = EvEnqueue (recvCh t) msg.
Proof. unfold peer_event. by intros ->. Qed.

Lemma peer_event_remote p :
  is_local t p = false → peer_event t ctx msg payload p = send_event t ctx payload p.
Proof. unfold peer_event. by intros ->. Qed.



(** The loop over [pre ++ rest] is the loop over [pre] and, when that
    came to its end without an error, the loop over [rest]. *)
Lemma Broadcast_loop_app pre rest w :
  loop (pre ++ rest) w =
  match loop pre w with
  | Ret None w1 => loop rest w1
  | r => r
  end.
Proof.
  revert w. induction pre as [|p pre IH]; intros w; simpl; [done|].
  destruct (is_local t p); unfold bind; simpl.
  - destruct (select_send (recvCh t) ctx msg w) as [[e|] w1|w1|w1]; simpl; auto.
  - unfold SendAsync.
    destruct (reply (sender t) w ctx (tcpNode t) HotStuffv1ProtocolID (ID p) payload);
      simpl; auto.
Qed.

Lemma Broadcast_loop_no_panic ps w w' : loop ps w ≠ Panic w'.
Proof.
  revert w. induction ps as [|p ps IH]; intros w; simpl; [done|].
  destruct (is_local t p); unfold bind; simpl.
  - destruct (select_send (recvCh t) ctx msg w) as [[e|] w1|w1|w1] eqn:E; simpl; auto.
    by apply select_send_no_panic in E.
  - unfold SendAsync.
    destruct (reply (sender t) w ctx (tcpNode t) HotStuffv1ProtocolID (ID p) payload);
      simpl; auto.
Qed.

(** A loop that came to its end logged one event per peer, in the order
    of the directory. *)
Lemma Broadcast_loop_log ps w w' :
  loop ps w = Ret None w' →
  log w' = log w ++ (peer_event t ctx msg payload <$> ps).
Proof.
  revert w. induction ps as [|p ps IH]; intros w; simpl.
  - intros [= <-]. by rewrite app_nil_r.
  - unfold peer_event at 1. destruct (is_local t p); unfold bind; simpl.
    + destruct (select_send (recvCh t) ctx msg w) as [[e|] w1|w1|w1] eqn:E;
        simpl; try done.
      intros H. apply IH in H. apply select_send_sent in E as [E _].
      rewrite H, E. by rewrite <- app_assoc.
    + unfold SendAsync.
      destruct (reply (sender t) w ctx (tcpNode t) HotStuffv1ProtocolID (ID p) payload);
        simpl; try done.
      intros H. apply IH in H. rewrite H. simpl. by rewrite <- app_assoc.
Qed.


Lemma Broadcast_loop_caps ps w :
  cap <$> chans (world_of (loop ps w)) = cap <$> chans w.
Proof.
  revert w. induction ps as [|p ps IH]; intros w; simpl; [done|].
  destruct (is_local t p); unfold bind; simpl.
  - pose proof (select_send_caps (recvCh t) ctx msg w) as Hc.
    destruct (select_send (recvCh t) ctx msg w) as [[e|] w1|w1|w1]; simpl in *;
      try done.
    by rewrite IH.
  - unfold SendAsync.
    destruct (reply (sender t) w ctx (tcpNode t) HotStuffv1ProtocolID (ID p) payload);
      simpl; try done.
    by rewrite IH.
Qed.








End Loop.

(** ** The range check and the two branches of a directed send *)

Lemma range_check_in (n : nat) (id : HsID) :
  (1 ≤ id ≤ Z.of_nat n)%Z → ((id <? 1)%Z || (Z.of_nat n <? id)%Z)%bool = false.
Proof. intros H. apply orb_false_iff. split; apply Z.ltb_ge; lia. Qed.

Lemma range_check_out (n : nat) (id : HsID) :
  ¬ (1 ≤ id ≤ Z.of_nat n)%Z → ((id <? 1)%Z || (Z.of_nat n <? id)%Z)%bool = true.
Proof.
  intros H. apply orb_true_iff.
  destruct (decide (id < 1)%Z); [left|right]; apply Z.ltb_lt; lia.
Qed.

Lemma SendTo_out_of_range t ctx id msg w :
  ¬ (1 ≤ id ≤ Z.of_nat (length (peers t)))%Z →
  SendTo t ctx id msg w = Ret (Some (errors_New "invalid peer ID")) w.
Proof. intros H. unfold SendTo. by rewrite range_check_out. Qed.

Lemma SendTo_valid t ctx id msg w :
  (1 ≤ id ≤ Z.of_nat (length (peers t)))%Z →
  ∃ peer, peers t !! Z.to_nat (ToIndex id) = Some peer ∧
    SendTo t ctx id msg w =
      if is_local t peer
      then Broadcast_loop t ctx msg (ToProto msg) [peer] w
      else Broadcast_loop t ctx msg (ToProto msg) [peer] (emit (EvToProto msg) w).
Proof.
  intros [H1 H2].
  destruct (peers t !! Z.to_nat (ToIndex id)) as [peer|] eqn:Hp.
  - exists peer. split; [done|]. unfold SendTo.
    rewrite range_check_in by done. rewrite Hp.
    destruct (is_local t peer) eqn:El; simpl; rewrite El.
    + unfold bind.
      by destruct (select_send (recvCh t) ctx msg w) as [[e|] w1|w1|w1].
    + unfold bind. simpl.
      by destruct (reply (sender t) (emit (EvToProto msg) w) ctx (tcpNode t)
                     HotStuffv1ProtocolID (ID peer) (ToProto msg)).
  - apply lookup_ge_None in Hp. unfold ToIndex in Hp. lia.
Qed.

(** ** Broadcast *)

Lemma Broadcast_unfold t ctx msg w :
  Broadcast t ctx msg w =
  Broadcast_loop t ctx msg (ToProto msg) (peers t) (emit (EvToProto msg) w).
Proof. done. Qed.

(** ** Directed send *)

(** C3. A directed send to an id below 1 or above the number of peers
    returns the error "invalid peer ID" and leaves the world as it was:
    nothing enqueued, nothing sent, nothing logged; no send to an id
    within the range returns that error, and no send panics on the
    directory lookup. *)
Theorem SendTo_invalid_peer_ID t ctx id msg w :
  ((id < 1 ∨ id > Z.of_nat (length (peers t)))%Z →
     SendTo t ctx id msg w = Ret (Some (errors_New "invalid peer ID")) w) ∧
  ((1 ≤ id ≤ Z.of_nat (length (peers t)))%Z →
     ∀ w', SendTo t ctx id msg w ≠ Ret (Some (errors_New "invalid peer ID")) w') ∧
  (∀ w', SendTo t ctx id msg w ≠ Panic w').
Proof.
  assert ((1 ≤ id ≤ Z.of_nat (length (peers t)))%Z →
          ∀ w', SendTo t ctx id msg w ≠ Ret (Some (errors_New "invalid peer ID")) w' ∧
                SendTo t ctx id msg w ≠ Panic w') as Hvalid.
  { intros Hid w'. destruct (SendTo_valid t ctx id msg w Hid) as (peer & _ & ->).
    split.
    - destruct (is_local t peer) eqn:El; simpl; rewrite El; unfold bind.
      + destruct (select_send (recvCh t) ctx msg w) as [[e|] w1|w1|w1] eqn:E; try done.
        apply select_send_err in E as (e' & _ & _ & -> & _). done.
      + simpl.
        by destruct (reply (sender t) (emit (EvToProto msg) w) ctx (tcpNode t)
                       HotStuffv1ProtocolID (ID peer) (ToProto msg)).
    - destruct (is_local t peer); apply Broadcast_loop_no_panic. }
  split; [|split].
  - intros Hid. apply SendTo_out_of_range. lia.
  - intros Hid w'. by apply Hvalid.
  - intros w'.
    destruct (decide (1 ≤ id ≤ Z.of_nat (length (peers t)))%Z) as [Hid|Hid].
    + by apply Hvalid.
    + by rewrite SendTo_out_of_range.
Qed.

(** ** Failing sends *)

Lemma Broadcast_send_refused t ctx msg w pre p post w1 e :
  peers t = pre ++ p :: post → is_local t p = false →
  Broadcast_loop t ctx msg (ToProto msg) pre (emit (EvToProto msg) w) = Ret None w1 →
  reply (sender t) w1 ctx (tcpNode t) HotStuffv1ProtocolID (ID p) (ToProto msg) = Some e →
  Broadcast t ctx msg w =
    Ret (Some (errors_Wrap e "failed to send message"))
        (emit (send_event t ctx (ToProto msg) p) w1).
Proof.
  intros Hps Hp Hpre He.
  rewrite Broadcast_unfold, Hps, Broadcast_loop_app, Hpre.
  simpl. rewrite Hp. unfold bind, SendAsync. by rewrite He.
Qed.

(** C4. When the sender refuses the request for the peer at some
    position, after the loop passed the peers before it, the broadcast
    returns that error wrapped with "failed to send message"; the refused
    request is the last thing it did: one attempt, nothing for the peers
    after it.  A directed send to a remote peer wraps the sender's error
    in the same way after its one attempt. *)
Theorem Broadcast_fail_fast t ctx msg w :
  (∀ pre p post w1 e,
     peers t = pre ++ p :: post → is_local t p = false →
     Broadcast_loop t ctx msg (ToProto msg) pre (emit (EvToProto msg) w) = Ret None w1 →
     reply (sender t) w1 ctx (tcpNode t) HotStuffv1ProtocolID (ID p) (ToProto msg) = Some e →
     let w2 := emit (send_event t ctx (ToProto msg) p) w1 in
     Broadcast t ctx msg w = Ret (Some (errors_Wrap e "failed to send message")) w2 ∧
     log w2 = log w ++ EvToProto msg ::
                (peer_event t ctx msg (ToProto msg) <$> pre) ++
                [send_event t ctx (ToProto msg) p] ∧
     chans w2 = chans w1) ∧
  (∀ id peer e,
     (1 ≤ id ≤ Z.of_nat (length (peers t)))%Z →
     peers t !! Z.to_nat (ToIndex id) = Some peer → is_local t peer = false →
     reply (sender t) (emit (EvToProto msg) w) ctx (tcpNode t) HotStuffv1ProtocolID
       (ID peer) (ToProto msg) = Some e →
     let w2 := emit (send_event t ctx (ToProto msg) peer) (emit (EvToProto msg) w) in
     SendTo t ctx id msg w = Ret (Some (errors_Wrap e "failed to send message")) w2 ∧
     log w2 = log w ++ [EvToProto msg; send_event t ctx (ToProto msg) peer] ∧
     chans w2 = chans w).
Proof.
  split.
  - intros pre p post w1 e Hps Hp Hpre He w2. subst w2.
    split; [by apply (Broadcast_send_refused t ctx msg w pre p post)|].
    apply Broadcast_loop_log in Hpre. simpl in Hpre.
    split; [|done]. simpl. rewrite Hpre. by rewrite <- !app_assoc.
  - intros id peer e Hid Hp Hl He w2. subst w2.
    destruct (SendTo_valid t ctx id msg w Hid) as (peer' & Hp' & ->).
    rewrite Hp in Hp'. injection Hp' as <-. rewrite Hl.
    split; [|split; [|done]].
    + simpl. rewrite Hl. unfold bind, SendAsync. by rewrite He.
    + simpl. by rewrite <- app_assoc.
Qed.

(** ** Inbound delivery *)

Lemma P2PHandler_valid t ctx from pb w :
  P2PHandler t ctx from (HotStuffMsg_ptr (Some pb)) w =
  match select_send (recvCh t) ctx (ProtoToMsg pb) w with
  | Ret err w' => Ret (None, false, err) w'
  | Block w' => Block w'
  | Panic w' => Panic w'
  end.
Proof. done. Qed.

(** C7. Called with the nil interface, with a nil HotStuffMsg pointer or
    with a message of another concrete type, the handler returns an
    error, leaves the world as it was, so that nothing is enqueued, and
    does not panic; whatever it is called with, when it returns, the
    response is nil and the continuation flag is false. *)
Theorem P2PHandler_rejects_invalid t ctx from req w :
  (rejected req = true →
     P2PHandler t ctx from req w =
       Ret (None, false, Some (errors_New "received invalid HotStuff consensus message")) w ∧
     (∀ w', P2PHandler t ctx from req w ≠ Panic w') ∧
     (∀ w', P2PHandler t ctx from req w ≠ Block w')) ∧
  (∀ resp cont err w',
     P2PHandler t ctx from req w = Ret (resp, cont, err) w' →
     resp = None ∧ cont = false).
Proof.
  split.
  - by destruct req as [|[pb|]|kind].
  - intros resp cont err w'. destruct req as [|[pb|]|kind];
      try by intros [= <- <- _ _].
    rewrite P2PHandler_valid.
    destruct (select_send (recvCh t) ctx (ProtoToMsg pb) w) as [e w1|w1|w1];
      try done.
    by intros [= <- <- _ _].
Qed.

(** ** The receive channel *)

Lemma chan_recv_caps h w :
  cap <$> chans (world_of (chan_recv h w)) = cap <$> chans w.
Proof.
  unfold chan_recv. destruct (chans w !! recv_ref h) as [ch|]; [|done].
  destruct (buf ch); [done|]. simpl. by apply alter_caps.
Qed.

Lemma Broadcast_caps t ctx msg w :
  cap <$> chans (world_of (Broadcast t ctx msg w)) = cap <$> chans w.
Proof. rewrite Broadcast_unfold. by rewrite Broadcast_loop_caps. Qed.

Lemma SendTo_caps t ctx id msg w :
  cap <$> chans (world_of (SendTo t ctx id msg w)) = cap <$> chans w.
Proof.
  destruct (decide (1 ≤ id ≤ Z.of_nat (length (peers t)))%Z) as [Hid|Hid].
  - destruct (SendTo_valid t ctx id msg w Hid) as (peer & _ & ->).
    destruct (is_local t peer); by rewrite Broadcast_loop_caps.
  - by rewrite SendTo_out_of_range.
Qed.

Lemma P2PHandler_caps t ctx from req w :
  cap <$> chans (world_of (P2PHandler t ctx from req w)) = cap <$> chans w.
Proof.
  destruct req as [|[pb|]|kind]; try done.
  rewrite P2PHandler_valid.
  pose proof (select_send_caps (recvCh t) ctx (ProtoToMsg pb) w) as H.
  by destruct (select_send (recvCh t) ctx (ProtoToMsg pb) w).
Qed.

(** C9. The constructor makes one channel, of capacity 16 and empty, at
    a reference no channel had before, and keeps that reference in the
    transport; [Broadcast], [SendTo], [P2PHandler] and the consumer's
    receive, whatever their outcome, leave the list of capacities of the
    channel heap as it was, so no channel is made, dropped or resized;
    [ReceiveCh] hands out the reference the transport holds. *)
Theorem recvCh_made_once h s ps w :
  let t := mkTransport h s ps (length (chans w)) in
  let w0 := set_chans (chans w ++ [mkChan msgBufferSize []]) w in
  newTransport h s ps w = Ret t w0 ∧
  msgBufferSize = 16 ∧
  chans w !! recvCh t = None ∧
  chans w0 !! recvCh t = Some (mkChan 16 []) ∧
  length (chans w0) = S (length (chans w)) ∧
  recv_ref (ReceiveCh t) = recvCh t ∧
  (∀ (t' : transport) ctx msg id from req w1,
     cap <$> chans (world_of (Broadcast t' ctx msg w1)) = cap <$> chans w1 ∧
     cap <$> chans (world_of (SendTo t' ctx id msg w1)) = cap <$> chans w1 ∧
     cap <$> chans (world_of (P2PHandler t' ctx from req w1)) = cap <$> chans w1 ∧
     cap <$> chans (world_of (chan_recv (ReceiveCh t') w1)) = cap <$> chans w1) ∧
  (∀ w1, cap <$> chans w1 = cap <$> chans w0 →
     ∃ ch, chans w1 !! recvCh t = Some ch ∧ cap ch = 16).
Proof.
  intros t w0. subst t w0. simpl.
  split; [done|]. split; [done|].
  split; [by apply lookup_ge_None|].
  split; [by rewrite lookup_app_r, Nat.sub_diag|].
  split; [rewrite length_app; simpl; lia|].
  split; [done|]. split.
  - intros t' ctx msg id from req w1.
    auto using Broadcast_caps, SendTo_caps, P2PHandler_caps, chan_recv_caps.
  - intros w1 H.
    assert ((cap <$> chans w1) !! length (chans w) = Some 16) as Hl.
    { rewrite H, fmap_app. rewrite lookup_app_r; rewrite length_fmap; [|done].
      by rewrite Nat.sub_diag. }
    rewrite list_lookup_fmap in Hl.
    destruct (chans w1 !! length (chans w)) as [ch|]; [|done].
    exists ch. split; [done|]. by injection Hl.
Qed.

(** ** Cancellation of a blocked enqueue *)

(** C5. When the buffer is full and the context is cancelled before the
    consumer takes anything from it, the blocked enqueue returns the
    context's error and the buffer and the trace are as they were: in
    the loopback of a directed send, in the inbound handler, and in the
    loopback of a broadcast, which then returns that error with nothing
    done for the peers after the local one. *)
Theorem blocked_enqueue_cancelled t ctx msg e w :
  (∀ id peer,
     (1 ≤ id ≤ Z.of_nat (length (peers t)))%Z →
     peers t !! Z.to_nat (ToIndex id) = Some peer → is_local t peer = true →
     cancelled_while_full (recvCh t) ctx e w →
     ∃ w', SendTo t ctx id msg w = Ret (Some (ctx_error e)) w' ∧
           chans w' !! recvCh t = chans w !! recvCh t ∧ log w' = log w) ∧
  (∀ from pb,
     cancelled_while_full (recvCh t) ctx e w →
     ∃ w', P2PHandler t ctx from (HotStuffMsg_ptr (Some pb)) w =
             Ret (None, false, Some (ctx_error e)) w' ∧
           chans w' !! recvCh t = chans w !! recvCh t ∧ log w' = log w) ∧
  (∀ pre p post w1,
     peers t = pre ++ p :: post → is_local t p = true →
     Broadcast_loop t ctx msg (ToProto msg) pre (emit (EvToProto msg) w) = Ret None w1 →
     cancelled_while_full (recvCh t) ctx e w1 →
     ∃ w2, Broadcast t ctx msg w = Ret (Some (ctx_error e)) w2 ∧
           chans w2 !! recvCh t = chans w1 !! recvCh t ∧
           log w2 = log w1 ∧
           log w2 = log w ++ EvToProto msg ::
                      (peer_event t ctx msg (ToProto msg) <$> pre)).
Proof.
  split; [|split].
  - intros id peer Hid Hp Hl Hcan.
    destruct (SendTo_valid t ctx id msg w Hid) as (peer' & Hp' & ->).
    rewrite Hp in Hp'. injection Hp' as <-. rewrite Hl. simpl. rewrite Hl.
    destruct (select_send_cancelled (recvCh t) ctx msg e w Hcan)
      as (w' & E & Hch & Hlog & _).
    exists w'. unfold bind. by rewrite E.
  - intros from pb Hcan. rewrite P2PHandler_valid.
    destruct (select_send_cancelled (recvCh t) ctx (ProtoToMsg pb) e w Hcan)
      as (w' & E & Hch & Hlog & _).
    exists w'. by rewrite E.
  - intros pre p post w1 Hps Hl Hpre Hcan.
    rewrite Broadcast_unfold, Hps, Broadcast_loop_app, Hpre.
    apply Broadcast_loop_log in Hpre. simpl in Hpre.
    destruct (select_send_cancelled (recvCh t) ctx msg e w1 Hcan)
      as (w2 & E & Hch & Hlog & _).
    exists w2. simpl. rewrite Hl. unfold bind. rewrite E.
    split; [done|]. split; [done|]. split; [done|].
    rewrite Hlog, Hpre. by rewrite <- app_assoc.
Qed.

(** ** Loopback *)

Lemma select_send_quiet c ctx m w :
  env w = [] → ctx_Err ctx w = None → send_ready c w = true →
  select_send c ctx m w = Ret None (enqueue c m w).
Proof.
  intros He Hc Hr. unfold select_send. rewrite He. simpl.
  assert (set_env [] w = w) as -> by (destruct w; simpl in *; by subst).
  unfold resolve. by rewrite Hr, Hc.
Qed.




(** ** The errors the transport returns *)

Lemma Broadcast_loop_err t ctx msg payload ps w err w' :
  Broadcast_loop t ctx msg payload ps w = Ret (Some err) w' →
  verbatim ctx err w' ∨ wrapped t ctx payload ps err w'.
Proof.
  revert w. induction ps as [|p ps IH]; intros w; simpl; [done|].
  destruct (is_local t p) eqn:El; unfold bind.
  - destruct (select_send (recvCh t) ctx msg w) as [[e|] w1|w1|w1] eqn:E; try done.
    + intros [= <- <-].
      apply select_send_err in E as (e' & pre & post & -> & He & _).
      left. by exists e'.
    + intros H. destruct (IH _ H) as [Hv|(e & q & w2 & Hq & ?)]; [by left|].
      right. exists e, q, w2. split; [by right|done].
  - unfold SendAsync.
    destruct (reply (sender t) w ctx (tcpNode t) HotStuffv1ProtocolID (ID p) payload)
      as [e|] eqn:Er.
    + intros [= <- <-]. right. exists e, p, w. split; [left|done].
    + intros H. destruct (IH _ H) as [Hv|(e & q & w2 & Hq & ?)]; [by left|].
      right. exists e, q, w2. split; [by right|done].
Qed.

(** C6, as the code has it. A cancellation that the blocking enqueue
    observes is returned as [ctx.Err()] reports it, not wrapped: by the
    loopback of a directed send, by the inbound handler, and by the
    loopback of a broadcast, which stops there; so it is whenever the
    buffer is full and the context is cancelled before the consumer takes
    anything.  A cancellation that the sender answers with is returned
    wrapped with "failed to send message", as every other error of a send
    is, by a broadcast and by a directed send.  The methods return no
    other error: an error of [Broadcast] is the one or the other,
    [SendTo] adds its "invalid peer ID", and the handler returns its own
    rejection or the context's error, not wrapped. *)
Theorem errors_returned t ctx msg w :
  (∀ err w', select_send (recvCh t) ctx msg w = Ret (Some err) w' →
     verbatim ctx err w' ∧
     ∀ id peer,
       (1 ≤ id ≤ Z.of_nat (length (peers t)))%Z →
       peers t !! Z.to_nat (ToIndex id) = Some peer → is_local t peer = true →
       SendTo t ctx id msg w = Ret (Some err) w') ∧
  (∀ from pb err w',
     select_send (recvCh t) ctx (ProtoToMsg pb) w = Ret (Some err) w' →
     verbatim ctx err w' ∧
     P2PHandler t ctx from (HotStuffMsg_ptr (Some pb)) w =
       Ret (None, false, Some err) w') ∧
  (∀ pre p post w1 err w2,
     peers t = pre ++ p :: post → is_local t p = true →
     Broadcast_loop t ctx msg (ToProto msg) pre (emit (EvToProto msg) w) = Ret None w1 →
     select_send (recvCh t) ctx msg w1 = Ret (Some err) w2 →
     verbatim ctx err w2 ∧ Broadcast t ctx msg w = Ret (Some err) w2) ∧
  (∀ e, cancelled_while_full (recvCh t) ctx e w →
     (∀ id peer,
        (1 ≤ id ≤ Z.of_nat (length (peers t)))%Z →
        peers t !! Z.to_nat (ToIndex id) = Some peer → is_local t peer = true →
        ∃ w', SendTo t ctx id msg w = Ret (Some (ctx_error e)) w' ∧
              ctx_Err ctx w' = Some e) ∧
     (∀ from pb,
        ∃ w', P2PHandler t ctx from (HotStuffMsg_ptr (Some pb)) w =
                Ret (None, false, Some (ctx_error e)) w' ∧
              ctx_Err ctx w' = Some e)) ∧
  (∀ e pre p post w1,
     peers t = pre ++ p :: post → is_local t p = true →
     Broadcast_loop t ctx msg (ToProto msg) pre (emit (EvToProto msg) w) = Ret None w1 →
     cancelled_while_full (recvCh t) ctx e w1 →
     ∃ w2, Broadcast t ctx msg w = Ret (Some (ctx_error e)) w2 ∧
           ctx_Err ctx w2 = Some e) ∧
  (∀ pre p post w1 c,
     peers t = pre ++ p :: post → is_local t p = false →
     Broadcast_loop t ctx msg (ToProto msg) pre (emit (EvToProto msg) w) = Ret None w1 →
     reply (sender t) w1 ctx (tcpNode t) HotStuffv1ProtocolID (ID p) (ToProto msg)
       = Some (ctx_error c) →
     Broadcast t ctx msg w =
       Ret (Some (errors_Wrap (ctx_error c) "failed to send message"))
           (emit (send_event t ctx (ToProto msg) p) w1)) ∧
  (∀ id peer c,
     (1 ≤ id ≤ Z.of_nat (length (peers t)))%Z →
     peers t !! Z.to_nat (ToIndex id) = Some peer → is_local t peer = false →
     reply (sender t) (emit (EvToProto msg) w) ctx (tcpNode t) HotStuffv1ProtocolID
       (ID peer) (ToProto msg) = Some (ctx_error c) →
     SendTo t ctx id msg w =
       Ret (Some (errors_Wrap (ctx_error c) "failed to send message"))
           (emit (send_event t ctx (ToProto msg) peer) (emit (EvToProto msg) w))) ∧
  (∀ err w', Broadcast t ctx msg w = Ret (Some err) w' →
     verbatim ctx err w' ∨ wrapped t ctx (ToProto msg) (peers t) err w') ∧
  (∀ id err w', SendTo t ctx id msg w = Ret (Some err) w' →
     err = errors_New "invalid peer ID" ∨
     verbatim ctx err w' ∨ wrapped t ctx (ToProto msg) (peers t) err w') ∧
  (∀ from req resp cont err w',
     P2PHandler t ctx from req w = Ret (resp, cont, Some err) w' →
     err = errors_New "received invalid HotStuff consensus message" ∨
     verbatim ctx err w').
Proof.
  assert (∀ m w0 err w', select_send (recvCh t) ctx m w0 = Ret (Some err) w' →
                         verbatim ctx err w') as Hverb.
  { intros m w0 err w' E.
    apply select_send_err in E as (e & pre & post & -> & He & _). by exists e. }
  repeat apply conj.
  - intros err w' E. split; [by apply (Hverb msg w)|].
    intros id peer Hid Hp Hl.
    destruct (SendTo_valid t ctx id msg w Hid) as (peer' & Hp' & ->).
    rewrite Hp in Hp'. injection Hp' as <-. rewrite Hl. simpl. rewrite Hl.
    unfold bind. by rewrite E.
  - intros from pb err w' E. split; [by apply (Hverb (ProtoToMsg pb) w)|].
    rewrite P2PHandler_valid. by rewrite E.
  - intros pre p post w1 err w2 Hps Hl Hpre E. split; [by apply (Hverb msg w1)|].
    rewrite Broadcast_unfold, Hps, Broadcast_loop_app, Hpre.
    simpl. rewrite Hl. unfold bind. by rewrite E.
  - intros e Hcan. split.
    + intros id peer Hid Hp Hl.
      destruct (SendTo_valid t ctx id msg w Hid) as (peer' & Hp' & ->).
      rewrite Hp in Hp'. injection Hp' as <-. rewrite Hl. simpl. rewrite Hl.
      destruct (select_send_cancelled (recvCh t) ctx msg e w Hcan)
        as (w' & E & _ & _ & He).
      exists w'. unfold bind. by rewrite E.
    + intros from pb. rewrite P2PHandler_valid.
      destruct (select_send_cancelled (recvCh t) ctx (ProtoToMsg pb) e w Hcan)
        as (w' & E & _ & _ & He).
      exists w'. by rewrite E.
  - intros e pre p post w1 Hps Hl Hpre Hcan.
    rewrite Broadcast_unfold, Hps, Broadcast_loop_app, Hpre.
    destruct (select_send_cancelled (recvCh t) ctx msg e w1 Hcan)
      as (w2 & E & _ & _ & He).
    exists w2. simpl. rewrite Hl. unfold bind. by rewrite E.
  - intros pre p post w1 c Hps Hp Hpre Hr.
    by apply (Broadcast_send_refused t ctx msg w pre p post).
  - intros id peer c Hid Hp Hl Hr.
    destruct (SendTo_valid t ctx id msg w Hid) as (peer' & Hp' & ->).
    rewrite Hp in Hp'. injection Hp' as <-. rewrite Hl. simpl. rewrite Hl.
    unfold bind, SendAsync. by rewrite Hr.
  - intros err w' E. rewrite Broadcast_unfold in E. by apply Broadcast_loop_err in E.
  - intros id err w' E.
    destruct (decide (1 ≤ id ≤ Z.of_nat (length (peers t)))%Z) as [Hid|Hid].
    + right. destruct (SendTo_valid t ctx id msg w Hid) as (peer & Hp & E').
      rewrite E' in E.
      assert (peer ∈ peers t) as Hin by (by eapply list_elem_of_lookup_2).
      destruct (is_local t peer);
        apply Broadcast_loop_err in E as [Hv|(e & q & w2 & Hq & ?)]; auto;
        right; exists e, q, w2; (split; [|done]);
        apply list_elem_of_singleton in Hq; by subst.
    + left. rewrite SendTo_out_of_range in E by done. by injection E as <-.
  - intros from req resp cont err w' E.
    destruct req as [|[pb|]|kind]; try (left; by injection E as <-).
    rewrite P2PHandler_valid in E.
    destruct (select_send (recvCh t) ctx (ProtoToMsg pb) w) as [e w1|w1|w1] eqn:Es;
      try done.
    injection E as _ _ -> ->.
    right. by apply (Hverb (ProtoToMsg pb) w).
Qed.

(** ** Back-pressure *)

Lemma select_send_parks c ctx m w :
  full c w → never_cancelled ctx w → EnvRecv c ∉ env w →
  ∃ w', select_send c ctx m w = Block w' ∧
        log w' = log w ∧ chans w' !! c = chans w !! c.
Proof.
  intros Hfull [Hc Hno] Hfree.
  destruct (select_send_ends c ctx m w) as [pre post Hes Hr|pre post e Hes Hd|Hr Hd].
  - assert (full c (env_run pre w)) as Hf.
    { destruct Hfull as (ch & Hch & Hlen). exists ch. split; [|done].
      rewrite env_run_untouched; [done|].
      intros Hin. apply Hfree. rewrite Hes. apply elem_of_app. by left. }
    by rewrite (full_not_ready _ _ Hf) in Hr.
  - rewrite env_run_not_cancelled in Hd; [done|done|].
    intros e' Hin. apply (Hno e'). rewrite Hes. apply elem_of_app. by left.
  - eexists. split; [done|]. simpl. split; [apply env_run_log|].
    by apply env_run_untouched.
Qed.

(** X2. With the receive buffer full, the consumer not receiving and the
    context never cancelled, the loopback of a directed send and the
    inbound handler never return, and nothing is enqueued or logged; a
    broadcast never returns either: it has sent to the peers before the
    local one and does nothing for the peers after it. *)
Theorem full_buffer_parks t ctx msg w :
  (∀ id peer,
     (1 ≤ id ≤ Z.of_nat (length (peers t)))%Z →
     peers t !! Z.to_nat (ToIndex id) = Some peer → is_local t peer = true →
     full (recvCh t) w → never_cancelled ctx w → EnvRecv (recvCh t) ∉ env w →
     ∃ w', SendTo t ctx id msg w = Block w' ∧ log w' = log w ∧
           chans w' !! recvCh t = chans w !! recvCh t) ∧
  (∀ from pb,
     full (recvCh t) w → never_cancelled ctx w → EnvRecv (recvCh t) ∉ env w →
     ∃ w', P2PHandler t ctx from (HotStuffMsg_ptr (Some pb)) w = Block w' ∧
           log w' = log w ∧ chans w' !! recvCh t = chans w !! recvCh t) ∧
  (∀ pre p post w1,
     peers t = pre ++ p :: post → is_local t p = true →
     Broadcast_loop t ctx msg (ToProto msg) pre (emit (EvToProto msg) w) = Ret None w1 →
     full (recvCh t) w1 → never_cancelled ctx w1 → EnvRecv (recvCh t) ∉ env w1 →
     ∃ w2, Broadcast t ctx msg w = Block w2 ∧
           chans w2 !! recvCh t = chans w1 !! recvCh t ∧
           log w2 = log w ++ EvToProto msg ::
                      (peer_event t ctx msg (ToProto msg) <$> pre)).
Proof.
  split; [|split].
  - intros id peer Hid Hp Hl Hfull Hc Hfree.
    destruct (SendTo_valid t ctx id msg w Hid) as (peer' & Hp' & ->).
    rewrite Hp in Hp'. injection Hp' as <-. rewrite Hl. simpl. rewrite Hl.
    destruct (select_send_parks (recvCh t) ctx msg w Hfull Hc Hfree)
      as (w' & E & Hlog & Hch).
    exists w'. unfold bind. by rewrite E.
  - intros from pb Hfull Hc Hfree. rewrite P2PHandler_valid.
    destruct (select_send_parks (recvCh t) ctx (ProtoToMsg pb) w Hfull Hc Hfree)
      as (w' & E & Hlog & Hch).
    exists w'. by rewrite E.
  - intros pre p post w1 Hps Hl Hpre Hfull Hc Hfree.
    rewrite Broadcast_unfold, Hps, Broadcast_loop_app, Hpre.
    apply Broadcast_loop_log in Hpre. simpl in Hpre.
    destruct (select_send_parks (recvCh t) ctx msg w1 Hfull Hc Hfree)
      as (w2 & E & Hlog & Hch).
    exists w2. simpl. rewrite Hl. unfold bind. rewrite E.
    split; [done|]. split; [done|].
    rewrite Hlog, Hpre. by rewrite <- app_assoc.
Qed.

(** ** Calls under a context that is cancelled already *)

Lemma select_send_after_cancel c ctx m e w :
  ctx_Err ctx w = Some e →
  (∃ w', select_send c ctx m w = Ret None w' ∧ log w' = log w ++ [EvEnqueue c m]) ∨
  (∃ w', select_send c ctx m w = Ret (Some (ctx_error e)) w' ∧ log w' = log w).
Proof.
  intros Hc.
  destruct (select_send_ends c ctx m w) as [pre post Hes Hr|pre post e' Hes Hd|Hr Hd].
  - left. eexists. split; [done|]. simpl. by rewrite env_run_log.
  - right. rewrite (env_run_keeps ctx e pre w Hc) in Hd. injection Hd as <-.
    eexists. split; [done|]. simpl. by rewrite env_run_log.
  - by rewrite (env_run_keeps ctx e (env w) w Hc) in Hd.
Qed.

Lemma select_send_tie c ctx m e tie rest w :
  ctx_Err ctx w = Some e → room c 1 w → env w = EnvSched tie :: rest →
  select_send c ctx m w =
    if tie then Ret (Some (ctx_error e)) (set_env rest w)
    else Ret None (enqueue c m (set_env rest w)).
Proof.
  intros Hc (ch & Hch & Hlen) Hes. unfold select_send. rewrite Hes. simpl.
  unfold resolve. rewrite send_ready_set_env, ctx_Err_set_env, Hc.
  unfold send_ready. rewrite Hch.
  rewrite bool_decide_eq_true_2 by lia. done.
Qed.

(** X4. A loopback send or an inbound delivery called with a context
    that is cancelled already never parks: it returns that context's
    error with nothing enqueued, or it enqueues and returns nil.  With
    room in the buffer both happen: which one is the runtime's choice
    between the two cases of the [select]. *)
Theorem cancelled_context_may_deliver t ctx msg e w :
  ctx_Err ctx w = Some e →
  (∀ id peer,
     (1 ≤ id ≤ Z.of_nat (length (peers t)))%Z →
     peers t !! Z.to_nat (ToIndex id) = Some peer → is_local t peer = true →
     ((∃ w', SendTo t ctx id msg w = Ret None w' ∧
             log w' = log w ++ [EvEnqueue (recvCh t) msg]) ∨
      (∃ w', SendTo t ctx id msg w = Ret (Some (ctx_error e)) w' ∧ log w' = log w)) ∧
     (∀ tie rest, room (recvCh t) 1 w → env w = EnvSched tie :: rest →
        SendTo t ctx id msg w =
          if tie then Ret (Some (ctx_error e)) (set_env rest w)
          else Ret None (enqueue (recvCh t) msg (set_env rest w)))) ∧
  (∀ from pb,
     ((∃ w', P2PHandler t ctx from (HotStuffMsg_ptr (Some pb)) w =
               Ret (None, false, None) w' ∧
             log w' = log w ++ [EvEnqueue (recvCh t) (ProtoToMsg pb)]) ∨
      (∃ w', P2PHandler t ctx from (HotStuffMsg_ptr (Some pb)) w =
               Ret (None, false, Some (ctx_error e)) w' ∧ log w' = log w)) ∧
     (∀ tie rest, room (recvCh t) 1 w → env w = EnvSched tie :: rest →
        P2PHandler t ctx from (HotStuffMsg_ptr (Some pb)) w =
          if tie then Ret (None, false, Some (ctx_error e)) (set_env rest w)
          else Ret (None, false, None)
                   (enqueue (recvCh t) (ProtoToMsg pb) (set_env rest w)))).
Proof.
  intros Hc. split.
  - intros id peer Hid Hp Hl.
    destruct (SendTo_valid t ctx id msg w Hid) as (peer' & Hp' & ->).
    rewrite Hp in Hp'. injection Hp' as <-. rewrite Hl. simpl. rewrite Hl.
    unfold bind. split.
    + destruct (select_send_after_cancel (recvCh t) ctx msg e w Hc)
        as [(w' & -> & Hlog)|(w' & -> & Hlog)]; [left|right]; by exists w'.
    + intros tie rest Hroom Hes.
      rewrite (select_send_tie (recvCh t) ctx msg e tie rest w Hc Hroom Hes).
      by destruct tie.
  - intros from pb. rewrite P2PHandler_valid. split.
    + destruct (select_send_after_cancel (recvCh t) ctx (ProtoToMsg pb) e w Hc)
        as [(w' & -> & Hlog)|(w' & -> & Hlog)]; [left|right]; by exists w'.
    + intros tie rest Hroom Hes.
      rewrite (select_send_tie (recvCh t) ctx (ProtoToMsg pb) e tie rest w Hc Hroom Hes).
      by destruct tie.
Qed.

(** ** Order of arrival *)

Lemma set_env_nil w : env w = [] → set_env [] w = w.
Proof. destruct w; simpl. by intros ->. Qed.

Lemma deliver_quiet t ctx d w ch :
  env w = [] → ctx_Err ctx w = None →
  chans w !! recvCh t = Some ch → length (buf ch) < cap ch → to_self t d →
  deliver t ctx d w = Ret None (enqueue (recvCh t) (delivered d) w).
Proof.
  intros He Hc Hch Hlen Hd.
  assert (send_ready (recvCh t) w = true) as Hr.
  { unfold send_ready. rewrite Hch. by apply bool_decide_eq_true. }
  destruct d as [id msg|from pb]; simpl.
  - destruct Hd as (Hid & peer & Hp & Hl).
    destruct (SendTo_valid t ctx id msg w Hid) as (peer' & Hp' & ->).
    rewrite Hp in Hp'. injection Hp' as <-. rewrite Hl. simpl. rewrite Hl.
    unfold bind. by rewrite select_send_quiet.
  - unfold bind. rewrite P2PHandler_valid. by rewrite select_send_quiet.
Qed.

Lemma deliver_each_quiet t ctx ds w ch :
  env w = [] → ctx_Err ctx w = None →
  chans w !! recvCh t = Some ch → length (buf ch) + length ds ≤ cap ch →
  Forall (to_self t) ds →
  ∃ w', deliver_each t ctx ds w = Ret None w' ∧
        chans w' !! recvCh t = Some (mkChan (cap ch) (buf ch ++ (delivered <$> ds))) ∧
        env w' = [] ∧ ctx_Err ctx w' = None ∧
        log w' = log w ++ (EvEnqueue (recvCh t) <$> (delivered <$> ds)).
Proof.
  revert w ch. induction ds as [|d ds IH]; intros w ch He Hc Hch Hlen Hds.
  - exists w. simpl. rewrite !app_nil_r, Hch. by destruct ch.
  - apply Forall_cons in Hds as [Hd Hds]. simpl in Hlen. simpl. unfold bind.
    rewrite (deliver_quiet t ctx d w ch) by (done || lia).
    destruct (IH (enqueue (recvCh t) (delivered d) w) (push (delivered d) ch))
      as (w' & E & H1 & H2 & H3 & H4); try done.
    { simpl. by rewrite list_lookup_alter_eq, Hch. }
    { simpl. rewrite length_app. simpl. lia. }
    exists w'. split; [done|]. rewrite H1, H4. simpl.
    by rewrite <- !app_assoc.
Qed.

Lemma drain_all c k (l : list Msg) w :
  chans w !! c = Some (mkChan k l) →
  ∃ w', drain (mkRecvChan c) (length l) w = Ret l w' ∧
        chans w' !! c = Some (mkChan k []) ∧ log w' = log w.
Proof.
  revert w. induction l as [|m l IH]; intros w Hch; simpl.
  - by exists w.
  - unfold bind, chan_recv. simpl. rewrite Hch. simpl.
    destruct (IH (set_chans (alter pop c (chans w)) w)) as (w' & E & H1 & H2).
    { simpl. by rewrite list_lookup_alter_eq, Hch. }
    rewrite E. by exists w'.
Qed.

(** X5. Messages accepted by successive calls, loopback sends and
    inbound deliveries alike, are received in the order of the calls and
    behind what the buffer held: with room for all of them, a live
    context and nobody interfering, every call returns nil, and the
    consumer then receives the old messages followed by the new ones,
    each once, which leaves the buffer empty; a further receive parks. *)
Theorem deliveries_arrive_in_order t ctx ds w ch :
  env w = [] → ctx_Err ctx w = None →
  chans w !! recvCh t = Some ch → length (buf ch) + length ds ≤ cap ch →
  Forall (to_self t) ds →
  ∃ w' w'',
    deliver_each t ctx ds w = Ret None w' ∧
    log w' = log w ++ (EvEnqueue (recvCh t) <$> (delivered <$> ds)) ∧
    drain (ReceiveCh t) (length (buf ch) + length ds) w' =
      Ret (buf ch ++ (delivered <$> ds)) w'' ∧
    chans w'' !! recvCh t = Some (mkChan (cap ch) []) ∧
    chan_recv (ReceiveCh t) w'' = Block w''.
Proof.
  intros He Hc Hch Hlen Hds.
  destruct (deliver_each_quiet t ctx ds w ch He Hc Hch Hlen Hds)
    as (w' & E & Hq & _ & _ & Hlog).
  destruct (drain_all (recvCh t) (cap ch) (buf ch ++ (delivered <$> ds)) w' Hq)
    as (w'' & Ed & Hq' & _).
  rewrite length_app, length_fmap in Ed.
  exists w', w''. split; [done|]. split; [done|]. split; [done|]. split; [done|].
  unfold chan_recv. simpl. by rewrite Hq'.
Qed.

(** ** Where a broadcast stops *)

Lemma Broadcast_loop_stops t ctx msg payload ps w err w' :
  Broadcast_loop t ctx msg payload ps w = Ret (Some err) w' →
  ∃ n p, ps !! n = Some p ∧
    ((is_local t p = true ∧ verbatim ctx err w' ∧
      log w' = log w ++ (peer_event t ctx msg payload <$> take n ps)) ∨
     (is_local t p = false ∧
      (∃ e, err = errors_Wrap e "failed to send message") ∧
      log w' = log w ++ (peer_event t ctx msg payload <$> take (S n) ps))).
Proof.
  revert w. induction ps as [|p ps IH]; intros w; simpl; [done|].
  destruct (is_local t p) eqn:El; unfold bind.
  - destruct (select_send (recvCh t) ctx msg w) as [[e|] w1|w1|w1] eqn:E; try done.
    + intros [= <- <-].
      apply select_send_err in E as (e' & pre & post & -> & He & _ & ->).
      exists 0, p. split; [done|]. left. split; [done|]. split; [by exists e'|].
      simpl. by rewrite env_run_log, app_nil_r.
    + intros H. apply select_send_sent in E as [Hlog _].
      destruct (IH _ H) as (n & q & Hq & Hcase). exists (S n), q. split; [done|].
      destruct Hcase as [(? & ? & Hl)|(? & ? & Hl)]; [left|right];
        (split; [done|]); (split; [done|]); rewrite Hl, Hlog;
        cbn [take fmap list_fmap]; rewrite (peer_event_local t ctx msg payload p El);
        by rewrite <- app_assoc.
  - unfold SendAsync.
    destruct (reply (sender t) w ctx (tcpNode t) HotStuffv1ProtocolID (ID p) payload)
      as [e|] eqn:Er.
    + intros [= <- <-]. exists 0, p. split; [done|]. right.
      split; [done|]. split; [by exists e|].
      simpl. by rewrite (peer_event_remote t ctx msg payload p El).
    + intros H. destruct (IH _ H) as (n & q & Hq & Hcase). exists (S n), q.
      split; [done|].
      destruct Hcase as [(? & ? & Hl)|(? & ? & Hl)]; [left|right];
        (split; [done|]); (split; [done|]); rewrite Hl;
        cbn [take fmap list_fmap]; rewrite (peer_event_remote t ctx msg payload p El);
        simpl; by rewrite <- app_assoc.
Qed.

Lemma select_send_quiet_cases c ctx m w :
  env w = [] →
  select_send c ctx m w = Ret None (enqueue c m w) ∧ send_ready c w = true ∨
  (∃ e, select_send c ctx m w = Ret (Some (ctx_error e)) w) ∨
  select_send c ctx m w = Block w.
Proof.
  intros He. unfold select_send. rewrite He. simpl.
  rewrite (set_env_nil w He). unfold resolve.
  destruct (send_ready c w), (ctx_Err ctx w) as [e|]; eauto.
Qed.

(** With nobody interfering, the buffer holds one more copy of the
    message for every local peer among the peers the loop handled. *)
Lemma Broadcast_loop_quiet_buffer t ctx msg payload ps w ch :
  env w = [] → chans w !! recvCh t = Some ch →
  ∃ n, log (world_of (Broadcast_loop t ctx msg payload ps w)) =
         log w ++ (peer_event t ctx msg payload <$> take n ps) ∧
       chans (world_of (Broadcast_loop t ctx msg payload ps w)) !! recvCh t =
         Some (mkChan (cap ch)
                 (buf ch ++ replicate (length (List.filter (is_local t) (take n ps))) msg)).
Proof.
  revert w ch. induction ps as [|p ps IH]; intros w ch He Hch.
  - exists 0. simpl. rewrite !app_nil_r, Hch. by destruct ch.
  - simpl. destruct (is_local t p) eqn:El; unfold bind.
    + destruct (select_send_quiet_cases (recvCh t) ctx msg w He)
        as [[-> Hr]|[[e ->]| ->]].
      * destruct (IH (enqueue (recvCh t) msg w) (push msg ch)) as (n & Hlog & Hq);
          [done|simpl; by rewrite list_lookup_alter_eq, Hch|].
        exists (S n). cbn [take List.filter]. rewrite El.
        split.
        -- etransitivity; [exact Hlog|]. simpl.
           rewrite (peer_event_local t ctx msg payload p El).
           by rewrite <- app_assoc.
        -- etransitivity; [exact Hq|]. simpl. by rewrite <- app_assoc.
      * exists 0. simpl. rewrite !app_nil_r, Hch. by destruct ch.
      * exists 0. simpl. rewrite !app_nil_r, Hch. by destruct ch.
    + unfold SendAsync.
      destruct (reply (sender t) w ctx (tcpNode t) HotStuffv1ProtocolID (ID p) payload).
      * exists 1. simpl. rewrite El. simpl.
        rewrite (peer_event_remote t ctx msg payload p El), app_nil_r, Hch.
        by destruct ch.
      * destruct (IH (emit (send_event t ctx payload p) w) ch) as (n & Hlog & Hq);
          [done|done|].
        exists (S n). cbn [take List.filter]. rewrite El. split.
        -- etransitivity; [exact Hlog|]. simpl.
           rewrite (peer_event_remote t ctx msg payload p El).
           by rewrite <- app_assoc.
        -- exact Hq.
Qed.

(** X6. A broadcast that returns an error stopped at one position of the
    directory: the context's error, not wrapped, means that the peer
    there is the local one and nothing was done for it; a wrapped error
    means that the peer there is remote and its send was attempted; in
    both cases every peer before it was handled and none after it.
    Nothing is taken back: with nobody interfering, whatever the outcome,
    the receive buffer holds one more copy of the message for every
    local peer among the peers that were handled. *)
Theorem Broadcast_stops_without_rollback t ctx msg w :
  (∀ err w', Broadcast t ctx msg w = Ret (Some err) w' →
     ∃ n p, peers t !! n = Some p ∧
       ((is_local t p = true ∧ verbatim ctx err w' ∧
         log w' = log w ++ EvToProto msg ::
                    (peer_event t ctx msg (ToProto msg) <$> take n (peers t))) ∨
        (is_local t p = false ∧
         (∃ e, err = errors_Wrap e "failed to send message") ∧
         log w' = log w ++ EvToProto msg ::
                    (peer_event t ctx msg (ToProto msg) <$> take (S n) (peers t))))) ∧
  (∀ ch, env w = [] → chans w !! recvCh t = Some ch →
     ∃ n, log (world_of (Broadcast t ctx msg w)) =
            log w ++ EvToProto msg ::
              (peer_event t ctx msg (ToProto msg) <$> take n (peers t)) ∧
          chans (world_of (Broadcast t ctx msg w)) !! recvCh t =
            Some (mkChan (cap ch)
                    (buf ch ++
                     replicate (length (List.filter (is_local t) (take n (peers t))))
                       msg))).
Proof.
  split.
  - intros err w' E. rewrite Broadcast_unfold in E.
    apply Broadcast_loop_stops in E as (n & p & Hp & Hcase).
    exists n, p. split; [done|].
    destruct Hcase as [(? & ? & Hl)|(? & ? & Hl)]; [left|right];
      (split; [done|]); (split; [done|]); rewrite Hl; simpl;
      by rewrite <- app_assoc.
  - intros ch He Hch. rewrite Broadcast_unfold.
    destruct (Broadcast_loop_quiet_buffer t ctx msg (ToProto msg) (peers t)
                (emit (EvToProto msg) w) ch He Hch) as (n & Hlog & Hq).
    exists n. split; [|done]. rewrite Hlog. simpl. by rewrite <- app_assoc.
Qed.

(** ** A fresh transport *)

Lemma deliver_parks t ctx d w :
  full (recvCh t) w → never_cancelled ctx w → EnvRecv (recvCh t) ∉ env w →
  to_self t d →
  ∃ w', deliver t ctx d w = Block w' ∧ log w' = log w ∧
        chans w' !! recvCh t = chans w !! recvCh t.
Proof.
  intros Hfull Hc Hfree Hd. destruct d as [id msg|from pb]; simpl.
  - destruct Hd as (Hid & peer & Hp & Hl).
    destruct (SendTo_valid t ctx id msg w Hid) as (peer' & Hp' & ->).
    rewrite Hp in Hp'. injection Hp' as <-. rewrite Hl. simpl. rewrite Hl.
    destruct (select_send_parks (recvCh t) ctx msg w Hfull Hc Hfree)
      as (w' & E & Hlog & Hch).
    exists w'. unfold bind. by rewrite E.
  - unfold bind. rewrite P2PHandler_valid.
    destruct (select_send_parks (recvCh t) ctx (ProtoToMsg pb) w Hfull Hc Hfree)
      as (w' & E & Hlog & Hch).
    exists w'. by rewrite E.
Qed.

(** X7. A transport fresh from its constructor, with a live context and
    nobody receiving or interfering, accepts up to sixteen deliveries in a
    row, loopback sends and inbound deliveries alike, and holds them in
    the order of the calls; once it holds sixteen, the next delivery
    parks and changes nothing. *)
Theorem fresh_transport_holds_sixteen h s ps ctx ds d w :
  let t := mkTransport h s ps (length (chans w)) in
  env w = [] → ctx_Err ctx w = None →
  Forall (to_self t) ds → to_self t d → length ds ≤ 16 →
  ∃ w0 w',
    newTransport h s ps w = Ret t w0 ∧
    deliver_each t ctx ds w0 = Ret None w' ∧
    chans w' !! recvCh t = Some (mkChan 16 (delivered <$> ds)) ∧
    (length ds = 16 →
       ∃ w'', deliver t ctx d w' = Block w'' ∧ log w'' = log w' ∧
              chans w'' !! recvCh t = Some (mkChan 16 (delivered <$> ds))).
Proof.
  intros t He Hc Hds Hd Hlen. subst t.
  set (t := mkTransport h s ps (length (chans w))) in *.
  set (w0 := set_chans (chans w ++ [mkChan msgBufferSize []]) w).
  assert (chans w0 !! recvCh t = Some (mkChan 16 [])) as Hch.
  { simpl. by rewrite lookup_app_r, Nat.sub_diag. }
  destruct (deliver_each_quiet t ctx ds w0 (mkChan 16 [])) as (w' & E & Hq & He' & Hc' & _);
    try done.
  exists w0, w'. split; [done|]. split; [done|]. split; [done|].
  intros Hfull.
  destruct (deliver_parks t ctx d w') as (w'' & Eb & Hlog & Hsame); try done.
  - eexists. split; [exact Hq|]. simpl. rewrite length_fmap. lia.
  - split; [done|]. intros e. rewrite He'. apply not_elem_of_nil.
  - rewrite He'. apply not_elem_of_nil.
  - exists w''. split; [done|]. split; [done|]. by rewrite Hsame.
Qed.

(** ** The fan-out of a broadcast *)









End Transport.

Arguments Ret {Msg ProtoMsg A} a w.
Arguments Block {Msg ProtoMsg A} w.
Arguments Panic {Msg ProtoMsg A} w.

(** * A cluster of four

    Four participants, the host being the second; votes are numbers and
    the toy wire form of a vote is the same number as an integer. *)

Module Cluster.

Definition Vote := nat.
Definition encode (v : Vote) : Z := Z.of_nat v.
Definition decode (p : Z) : Vote := Z.to_nat p.
Definition protocolID : string := "/charon/consensus/hotstuff/1.0.0".

Definition node : Host := mkHost "peer2".
Definition directory : list Peer :=
  [mkPeer "peer1"; mkPeer "peer2"; mkPeer "peer3"; mkPeer "peer4"].

(** A sender that accepts every request. *)
Definition accepting : @Sender Vote Z := mkSender (λ _ _ _ _ _ _, None).

(** A sender that refuses the requests for the third peer. *)
Definition refusing3 : @Sender Vote Z :=
  mkSender (λ _ _ _ _ to _,
    if String.eqb to "peer3" then Some (host_error "no route") else None).

(** A sender that honours the context: a request made under a context
    that is done is answered with that context's error. *)
Definition honouring : @Sender Vote Z :=
  mkSender (λ w ctx _ _ _ _, ctx_error <$> ctx_Err ctx w).

(** The world before the transport exists: one live context, number 0. *)
Definition boot : @World Vote Z := mkWorld [] [None] [] [].

Definition t_of (s : @Sender Vote Z) : @transport Vote Z :=
  mkTransport node s directory 0.

(** The world the constructor leaves. *)
Definition w0 : @World Vote Z := mkWorld [mkChan 16 []] [None] [] [].

(** The receive channel filled up, the goroutine reaching its [select]
    and the context cancelled after that. *)
Definition w_full : @World Vote Z :=
  mkWorld [mkChan 16 (replicate 16 0)] [None] [] [EnvSched false; EnvCancel 0 Canceled].

(** The world of a call whose context is cancelled already. *)
Definition w_done : @World Vote Z := mkWorld [mkChan 16 []] [Some Canceled] [] [].

Definition send_to (to : string) (v : Vote) : @Event Vote Z :=
  EvSendAsync 0 "peer2" protocolID to (encode v).


End Cluster.

Import Cluster.




(** The scenario of four: the broadcast returns nil, the vote is in the
    receive channel once, and the three others were sent to in order. *)
Example Broadcast_of_four :
  Broadcast encode protocolID (t_of accepting) 0 7 w0 =
  Ret None (mkWorld [mkChan 16 [7]] [None]
              [EvToProto 7; send_to "peer1" 7; EvEnqueue 0 7;
               send_to "peer3" 7; send_to "peer4" 7] []).
Proof. reflexivity. Qed.

(** The send to the third fails: the fourth is never attempted. *)
Example Broadcast_of_four_refused :
  Broadcast encode protocolID (t_of refusing3) 0 7 w0 =
  Ret (Some (errors_Wrap (host_error "no route") "failed to send message"))
      (mkWorld [mkChan 16 [7]] [None]
         [EvToProto 7; send_to "peer1" 7; EvEnqueue 0 7; send_to "peer3" 7] []).
Proof. reflexivity. Qed.

Example newTransport_boot :
  newTransport node accepting directory boot = Ret (t_of accepting) w0.
Proof. reflexivity. Qed.

Example Broadcast_blocked_for_ever :
  Broadcast encode protocolID (t_of accepting) 0 7
    (mkWorld [mkChan 16 (replicate 16 0)] [None] [] []) =
  Block (mkWorld [mkChan 16 (replicate 16 0)] [None]
           [EvToProto 7; send_to "peer1" 7] []).
Proof. reflexivity. Qed.

Example handler_delivers :
  P2PHandler decode (t_of accepting) 0 "peer1" (HotStuffMsg_ptr (Some 9%Z)) w0 =
  Ret (None, false, None) (mkWorld [mkChan 16 [9]] [None] [EvEnqueue 0 9] []).
Proof. reflexivity. Qed.

Lemma w_full_cancelled (evs : list (@Event Vote Z)) :
  cancelled_while_full 0 0 Canceled
    (mkWorld [mkChan 16 (replicate 16 0)] [None] evs
       [EnvSched false; EnvCancel 0 Canceled]).
Proof.
  split.
  - exists (mkChan 16 (replicate 16 0)). split; [done|]. simpl. lia.
  - exists [EnvSched false; EnvCancel 0 Canceled], [].
    split; [done|]. split; [|split; [done|by left]].
    rewrite !elem_of_cons, elem_of_nil. by intros [|[|]].
Qed.



Lemma SendTo_invalid_peer_ID_witness :
  SendTo encode protocolID (t_of accepting) 0 5 7 w0 =
    Ret (Some (errors_New "invalid peer ID")) w0 ∧
  SendTo encode protocolID (t_of accepting) 0 3 7 w0 ≠
    Ret (Some (errors_New "invalid peer ID")) w0.
Proof.
  split.
  - apply (SendTo_invalid_peer_ID encode protocolID (t_of accepting) 0 5 7 w0).
    right. simpl. lia.
  - apply (SendTo_invalid_peer_ID encode protocolID (t_of accepting) 0 3 7 w0).
    simpl. lia.
Defined.

Lemma Broadcast_fail_fast_witness :
  ∃ w2, Broadcast encode protocolID (t_of refusing3) 0 7 w0 =
          Ret (Some (errors_Wrap (host_error "no route") "failed to send message")) w2 ∧
        log w2 = [EvToProto 7; send_to "peer1" 7; EvEnqueue 0 7; send_to "peer3" 7].
Proof.
  destruct (Broadcast_fail_fast encode protocolID (t_of refusing3) 0 7 w0) as [Hb _].
  destruct (Hb [mkPeer "peer1"; mkPeer "peer2"] (mkPeer "peer3") [mkPeer "peer4"]
              (mkWorld [mkChan 16 [7]] [None]
                 [EvToProto 7; send_to "peer1" 7; EvEnqueue 0 7] [])
              (host_error "no route") eq_refl eq_refl eq_refl eq_refl)
    as (Hret & Hlog & _).
  eexists. split; [exact Hret|exact Hlog].
Defined.

Lemma blocked_enqueue_cancelled_witness :
  (∃ w', SendTo encode protocolID (t_of accepting) 0 2 7 w_full =
           Ret (Some (ctx_error Canceled)) w' ∧
         chans w' !! 0 = Some (mkChan 16 (replicate 16 0))) ∧
  (∃ w', P2PHandler decode (t_of accepting) 0 "peer1" (HotStuffMsg_ptr (Some 9%Z)) w_full =
           Ret (None, false, Some (ctx_error Canceled)) w' ∧
         chans w' !! 0 = Some (mkChan 16 (replicate 16 0))) ∧
  (∃ w2, Broadcast encode protocolID (t_of accepting) 0 7 w_full =
           Ret (Some (ctx_error Canceled)) w2 ∧
         log w2 = [EvToProto 7; send_to "peer1" 7]).
Proof.
  destruct (blocked_enqueue_cancelled encode decode protocolID (t_of accepting)
              0 7 Canceled w_full) as (Hs & Hh & Hb).
  split; [|split].
  - destruct (Hs 2%Z (mkPeer "peer2") ltac:(simpl; lia) eq_refl eq_refl
                (w_full_cancelled [])) as (w' & Hw' & Hch & _).
    exists w'. split; [exact Hw'|exact Hch].
  - destruct (Hh "peer1" 9%Z (w_full_cancelled []))
      as (w' & Hw' & Hch & _).
    exists w'. split; [exact Hw'|exact Hch].
  - destruct (Hb [mkPeer "peer1"] (mkPeer "peer2") [mkPeer "peer3"; mkPeer "peer4"]
                (emit (send_to "peer1" 7) (emit (EvToProto 7) w_full))
                eq_refl eq_refl eq_refl
                (w_full_cancelled [EvToProto 7; send_to "peer1" 7]))
      as (w2 & Hw2 & _ & _ & Hlog).
    exists w2. split; [exact Hw2|exact Hlog].
Defined.

(** C6 as the spec has it fails: the context is cancelled, the sender
    observes it and answers the request for the first peer with the
    context's error, and [Broadcast] and [SendTo] return that error
    wrapped, not as it is. *)
Lemma cancellation_from_send_is_wrapped :
  ctx_Err 0 w_done = Some Canceled ∧
  reply honouring (emit (EvToProto 7) w_done) 0 node protocolID "peer1" (encode 7)
    = Some (ctx_error Canceled) ∧
  Broadcast encode protocolID (t_of honouring) 0 7 w_done =
    Ret (Some (errors_Wrap (ctx_error Canceled) "failed to send message"))
        (mkWorld [mkChan 16 []] [Some Canceled] [EvToProto 7; send_to "peer1" 7] []) ∧
  SendTo encode protocolID (t_of honouring) 0 1 7 w_done =
    Ret (Some (errors_Wrap (ctx_error Canceled) "failed to send message"))
        (mkWorld [mkChan 16 []] [Some Canceled] [EvToProto 7; send_to "peer1" 7] []) ∧
  (¬ ∃ w', Broadcast encode protocolID (t_of honouring) 0 7 w_done =
             Ret (Some (ctx_error Canceled)) w') ∧
  (¬ ∃ w', SendTo encode protocolID (t_of honouring) 0 1 7 w_done =
             Ret (Some (ctx_error Canceled)) w').
Proof.
  split; [reflexivity|]. split; [reflexivity|]. split; [reflexivity|].
  split; [reflexivity|].
  split; intros [w' H]; vm_compute in H; discriminate H.
Qed.

Lemma errors_returned_witness :
  (∃ w', SendTo encode protocolID (t_of accepting) 0 2 7 w_full =
           Ret (Some (ctx_error Canceled)) w' ∧ ctx_Err 0 w' = Some Canceled) ∧
  (∃ w', P2PHandler decode (t_of accepting) 0 "peer1" (HotStuffMsg_ptr (Some 9%Z)) w_full =
           Ret (None, false, Some (ctx_error Canceled)) w' ∧
         ctx_Err 0 w' = Some Canceled) ∧
  (∃ w2, Broadcast encode protocolID (t_of accepting) 0 7 w_full =
           Ret (Some (ctx_error Canceled)) w2 ∧ ctx_Err 0 w2 = Some Canceled) ∧
  Broadcast encode protocolID (t_of honouring) 0 7 w_done =
    Ret (Some (errors_Wrap (ctx_error Canceled) "failed to send message"))
        (emit (send_to "peer1" 7) (emit (EvToProto 7) w_done)) ∧
  SendTo encode protocolID (t_of honouring) 0 1 7 w_done =
    Ret (Some (errors_Wrap (ctx_error Canceled) "failed to send message"))
        (emit (send_to "peer1" 7) (emit (EvToProto 7) w_done)).
Proof.
  destruct (errors_returned encode decode protocolID (t_of accepting) 0 7 w_full)
    as (_ & _ & _ & Hfull & Hloop & _).
  destruct (Hfull Canceled (w_full_cancelled [])) as [Hs Hh].
  destruct (errors_returned encode decode protocolID (t_of honouring) 0 7 w_done)
    as (_ & _ & _ & _ & _ & Hb & Hd & _).
  split; [|split; [|split; [|split]]].
  - apply (Hs 2%Z (mkPeer "peer2") ltac:(simpl; lia) eq_refl eq_refl).
  - apply (Hh "peer1" 9%Z).
  - apply (Hloop Canceled [mkPeer "peer1"] (mkPeer "peer2")
             [mkPeer "peer3"; mkPeer "peer4"]
             (emit (send_to "peer1" 7) (emit (EvToProto 7) w_full))
             eq_refl eq_refl eq_refl
             (w_full_cancelled [EvToProto 7; send_to "peer1" 7])).
  - apply (Hb [] (mkPeer "peer1") [mkPeer "peer2"; mkPeer "peer3"; mkPeer "peer4"]
             (emit (EvToProto 7) w_done) Canceled eq_refl eq_refl eq_refl eq_refl).
  - apply (Hd 1%Z (mkPeer "peer1") Canceled ltac:(simpl; lia) eq_refl eq_refl eq_refl).
Defined.

Lemma P2PHandler_rejects_invalid_witness :
  P2PHandler decode (t_of accepting) 0 "peer1" (other_Message "pbv1.QBFTMsg") w0 =
    Ret (None, false, Some (errors_New "received invalid HotStuff consensus message")) w0 ∧
  P2PHandler decode (t_of accepting) 0 "peer1" nil_Message w0 =
    Ret (None, false, Some (errors_New "received invalid HotStuff consensus message")) w0 ∧
  P2PHandler decode (t_of accepting) 0 "peer1" (HotStuffMsg_ptr None) w0 =
    Ret (None, false, Some (errors_New "received invalid HotStuff consensus message")) w0.
Proof.
  split; [|split].
  - apply (P2PHandler_rejects_invalid decode (t_of accepting) 0 "peer1"
             (other_Message "pbv1.QBFTMsg") w0). reflexivity.
  - apply (P2PHandler_rejects_invalid decode (t_of accepting) 0 "peer1" nil_Message w0).
    reflexivity.
  - apply (P2PHandler_rejects_invalid decode (t_of accepting) 0 "peer1"
             (HotStuffMsg_ptr None) w0). reflexivity.
Defined.

Lemma recvCh_made_once_witness :
  newTransport node accepting directory boot = Ret (t_of accepting) w0 ∧
  ∃ ch, chans (world_of (Broadcast encode protocolID (t_of accepting) 0 7 w0)) !! 0
          = Some ch ∧ cap ch = 16.
Proof.
  destruct (recvCh_made_once encode decode protocolID node accepting directory boot)
    as (Hnew & _ & _ & _ & _ & _ & Hops & Hkeep).
  split; [exact Hnew|].
  apply (Hkeep (world_of (Broadcast encode protocolID (t_of accepting) 0 7 w0))).
  apply (Hops (t_of accepting) 0 7 0%Z "peer1" nil_Message w0).
Defined.


(** * The cluster of four, further *)

(** The receive channel filled up and nobody else acting. *)
Definition w_stuck : @World Vote Z :=
  mkWorld [mkChan 16 (replicate 16 0)] [None] [] [].

(** The context cancelled before the call; the runtime picks the
    [ctx.Done()] case or the send. *)
Definition w_cancelled (tie : bool) : @World Vote Z :=
  mkWorld [mkChan 16 []] [Some Canceled] [] [EnvSched tie].

Lemma peer2_to_self (s : @Sender Vote Z) (v : Vote) :
  to_self (t_of s) (@Loopback Vote Z 2 v).
Proof. split; [simpl; lia|]. by exists (mkPeer "peer2"). Qed.

Lemma full_buffer_parks_witness :
  (∃ w', SendTo encode protocolID (t_of accepting) 0 2 7 w_stuck = Block w' ∧
         log w' = []) ∧
  (∃ w', P2PHandler decode (t_of accepting) 0 "peer1" (HotStuffMsg_ptr (Some 9%Z)) w_stuck
           = Block w' ∧ log w' = []) ∧
  (∃ w2, Broadcast encode protocolID (t_of accepting) 0 7 w_stuck = Block w2 ∧
         log w2 = [EvToProto 7; send_to "peer1" 7]).
Proof.
  assert (∀ evs : list (@Event Vote Z),
            full 0 (mkWorld [mkChan 16 (replicate 16 0)] [None] evs []) ∧
            never_cancelled 0 (mkWorld [mkChan 16 (replicate 16 0)] [None] evs []) ∧
            EnvRecv 0 ∉ env (mkWorld [mkChan 16 (replicate 16 0)] [None] evs []))
    as Hstuck.
  { intros evs. split; [|split].
    - exists (mkChan 16 (replicate 16 0)). split; [done|]. simpl. lia.
    - split; [done|]. intros e. apply not_elem_of_nil.
    - apply not_elem_of_nil. }
  destruct (full_buffer_parks encode decode protocolID (t_of accepting) 0 7 w_stuck)
    as (Hs & Hh & Hb).
  destruct (Hstuck []) as (Hfull & Hc & Hfree).
  split; [|split].
  - destruct (Hs 2%Z (mkPeer "peer2") ltac:(simpl; lia) eq_refl eq_refl Hfull Hc Hfree)
      as (w' & E & Hlog & _).
    exists w'. split; [exact E|exact Hlog].
  - destruct (Hh "peer1" 9%Z Hfull Hc Hfree) as (w' & E & Hlog & _).
    exists w'. split; [exact E|exact Hlog].
  - destruct (Hstuck [EvToProto 7; send_to "peer1" 7]) as (Hfull1 & Hc1 & Hfree1).
    destruct (Hb [mkPeer "peer1"] (mkPeer "peer2") [mkPeer "peer3"; mkPeer "peer4"]
                (emit (send_to "peer1" 7) (emit (EvToProto 7) w_stuck))
                eq_refl eq_refl eq_refl Hfull1 Hc1 Hfree1) as (w2 & E & _ & Hlog).
    exists w2. split; [exact E|exact Hlog].
Defined.

Lemma cancelled_context_may_deliver_witness :
  SendTo encode protocolID (t_of accepting) 0 2 7 (w_cancelled true) =
    Ret (Some (ctx_error Canceled)) (set_env [] (w_cancelled true)) ∧
  SendTo encode protocolID (t_of accepting) 0 2 7 (w_cancelled false) =
    Ret None (enqueue 0 7 (set_env [] (w_cancelled false))).
Proof.
  assert (∀ tie, room 0 1 (w_cancelled tie)) as Hroom.
  { intros tie. exists (mkChan 16 []). split; [done|]. simpl. lia. }
  split.
  - destruct (cancelled_context_may_deliver encode decode protocolID (t_of accepting)
                0 7 Canceled (w_cancelled true) eq_refl) as [Hs _].
    destruct (Hs 2%Z (mkPeer "peer2") ltac:(simpl; lia) eq_refl eq_refl) as [_ Htie].
    apply (Htie true [] (Hroom true) eq_refl).
  - destruct (cancelled_context_may_deliver encode decode protocolID (t_of accepting)
                0 7 Canceled (w_cancelled false) eq_refl) as [Hs _].
    destruct (Hs 2%Z (mkPeer "peer2") ltac:(simpl; lia) eq_refl eq_refl) as [_ Htie].
    apply (Htie false [] (Hroom false) eq_refl).
Defined.

Lemma deliveries_arrive_in_order_witness :
  ∃ w' w'',
    deliver_each encode decode protocolID (t_of accepting) 0
      [Inbound "peer1" 9%Z; Loopback 2 7; Inbound "peer3" 4%Z] w0 = Ret None w' ∧
    drain (ReceiveCh (t_of accepting)) 3 w' = Ret [9; 7; 4] w''.
Proof.
  destruct (deliveries_arrive_in_order encode decode protocolID (t_of accepting) 0
              [Inbound "peer1" 9%Z; Loopback 2 7; Inbound "peer3" 4%Z] w0
              (mkChan 16 []) eq_refl eq_refl eq_refl ltac:(simpl; lia))
    as (w' & w'' & E & _ & Ed & _).
  - constructor; [exact I|]. constructor; [apply (peer2_to_self accepting 7)|].
    constructor; [exact I|constructor].
  - exists w', w''. split; [exact E|exact Ed].
Defined.

Lemma Broadcast_stops_without_rollback_witness :
  let t := t_of refusing3 in
  let err := errors_Wrap (host_error "no route") "failed to send message" in
  let w' := mkWorld [mkChan 16 [7]] [None]
              [EvToProto 7; send_to "peer1" 7; EvEnqueue 0 7; send_to "peer3" 7] [] in
  (∃ n p, peers t !! n = Some p ∧
     ((is_local t p = true ∧ verbatim 0 err w' ∧
       log w' = log w0 ++ EvToProto 7 ::
                  (peer_event protocolID t 0 7 (encode 7) <$> take n (peers t))) ∨
      (is_local t p = false ∧
       (∃ e, err = errors_Wrap e "failed to send message") ∧
       log w' = log w0 ++ EvToProto 7 ::
                  (peer_event protocolID t 0 7 (encode 7) <$> take (S n) (peers t))))) ∧
  ∃ n, chans (world_of (Broadcast encode protocolID t 0 7 w0)) !! 0 =
         Some (mkChan 16 ([] ++ replicate
                 (length (List.filter (is_local t) (take n (peers t)))) 7)).
Proof.
  intros t err w'.
  destruct (Broadcast_stops_without_rollback encode protocolID t 0 7 w0)
    as [Hstop Hquiet].
  split.
  - apply (Hstop err w'). reflexivity.
  - destruct (Hquiet (mkChan 16 []) eq_refl eq_refl) as (n & _ & Hq).
    exists n. exact Hq.
Defined.

Lemma fresh_transport_holds_sixteen_witness :
  ∃ w0' w',
    newTransport node accepting directory boot = Ret (t_of accepting) w0' ∧
    deliver_each encode decode protocolID (t_of accepting) 0
      (replicate 16 (Inbound "peer1" 9%Z)) w0' = Ret None w' ∧
    ∃ w'', deliver encode decode protocolID (t_of accepting) 0 (Loopback 2 7) w' = Block w''.
Proof.
  destruct (fresh_transport_holds_sixteen encode decode protocolID node accepting
              directory 0 (replicate 16 (Inbound "peer1" 9%Z)) (Loopback 2 7) boot
              eq_refl eq_refl)
    as (w0' & w' & Hnew & E & _ & Hfull).
  - simpl. repeat (constructor; [exact I|]). constructor.
  - apply (peer2_to_self accepting 7).
  - simpl. lia.
  - destruct (Hfull eq_refl) as (w'' & Eb & _).
    exists w0', w'. split; [exact Hnew|]. split; [exact E|]. by exists w''.
Defined.

(** * The compose automation

    A shallow embedding of package [compose], file [auto.go]: [Auto] and
    its helpers [printDockerCompose], [fixPerms], [execDown], [execUp] and
    [NewRunnerFunc].  The code drives external commands; the embedding
    threads the trace of what it did and asks a [Machine] for what the
    commands, the context, the file system and the other functions of the
    package answer. *)

Module Compose.

(** Structured fields of package [z] attached to errors and log lines. *)
Inductive Field :=
| z_Str (key value : string)
| z_Any (key : string) (value : list string).

(** Go [error] values met by this file; a nil error is [None]. *)
Inductive Error :=
| New (msg : string) (fields : list Field)
| Wrap (cause : Error) (msg : string) (fields : list Field)
| context_Err (c : CtxErr)
| fs_ErrNotExist
| foreign (text : string).

(** The contexts this file builds from the one it is given. *)
Inductive Context :=
| given (n : nat)
| context_Background
| log_WithTopic (parent : Context) (topic : string)
| context_WithTimeout (parent : Context) (timeout : Z).

Inductive Level := Info | Error_level.

Section Auto.

(** [Config], [TmplData] with its zero value, and the marker
    [alertsPolled] are declared elsewhere in the package. *)
Context {Config TmplData : Type}.
Variable zero_TmplData : TmplData.
Variable alertsPolled : string.

(** What the code did, oldest first. *)
Inductive Event :=
| EvLog (level : Level) (ctx : Context) (msg : string) (fields : list Field)
| EvExec (ctx : Context) (dir : string) (name : string) (args : list string)
         (captured : bool)
| EvLoadConfig (dir : string)
| EvRunFunc (ctx : Context) (dir : string) (conf : Config)
| EvWrite (dir : string) (tmpl : TmplData)
| EvCollector (ctx : Context) (dir : string)
| EvCancel (ctx : Context).

(** [RunFunc]: a function of the package that generates the compose
    file and returns the template data; its answer may depend on all
    that happened. *)
Definition RunFunc := list Event → Context → string → Config → TmplData * option Error.

(** What the world outside answers, given all that happened so far. *)
Record Machine := mkMachine {
  run_cmd : list Event → Context → string → string → list string → option Error * string;
  ctx_Err : list Event → Context → option CtxErr;
  LoadConfig : list Event → string → Config * option Error;
  WriteDockerCompose : list Event → string → TmplData → option Error;
  collected : list Event → list string * bool;
  errors_Is : Error → Error → bool
}.

Variable mach : Machine.
Variables Define Lock Run : RunFunc.

Record AutoConfig := mkAutoConfig {
  Dir : string;
  AlertTimeout : Z;
  SudoPerms : bool;
  PrintYML : bool;
  RunTmplFunc : option (TmplData → TmplData);
  DefineTmplFunc : option (TmplData → TmplData)
}.

(** ** The monad: a trace, and calls that may never return *)

Inductive Res (A : Type) :=
| Ret (a : A) (tr : list Event)
| Block (tr : list Event).
Arguments Ret {A} a tr.
Arguments Block {A} tr.

Definition M (A : Type) := list Event → Res A.

Definition ret {A} (a : A) : M A := fun tr => Ret a tr.
Definition bind {A B} (m : M A) (k : A → M B) : M B :=
  fun tr => match m tr with
            | Ret a tr' => k a tr'
            | Block tr' => Block tr'
            end.

Notation "x <~ m ;; k" := (bind m (fun x => k))
  (at level 100, m at next level, right associativity).

Definition trace_of {A} (r : Res A) : list Event :=
  match r with Ret _ tr | Block tr => tr end.

Definition log_line (level : Level) (ctx : Context) (msg : string)
  (fields : list Field) : M unit :=
  fun tr => Ret tt (tr ++ [EvLog level ctx msg fields]).

(** [cmd.Run()] of [exec.CommandContext(ctx, name, args...)] in [dir],
    output to the terminal.  The machine answers with what the command
    exits with; a command that never exits is not a case of this
    embedding. *)
Definition cmd_Run (ctx : Context) (dir name : string) (args : list string)
  : M (option Error) :=
  fun tr => Ret (fst (run_cmd mach tr ctx dir name args))
                (tr ++ [EvExec ctx dir name args false]).

(** [cmd.CombinedOutput()]: the output is captured. *)
Definition cmd_CombinedOutput (ctx : Context) (dir name : string) (args : list string)
  : M (string * option Error) :=
  fun tr => let '(err, out) := run_cmd mach tr ctx dir name args in
            Ret (out, err) (tr ++ [EvExec ctx dir name args true]).

(** [ctx.Err()]. *)
Definition ctx_Err_now (ctx : Context) : M (option CtxErr) :=
  fun tr => Ret (ctx_Err mach tr ctx) tr.

Definition call_LoadConfig (dir : string) : M (Config * option Error) :=
  fun tr => Ret (LoadConfig mach tr dir) (tr ++ [EvLoadConfig dir]).

Definition call_RunFunc (f : RunFunc) (ctx : Context) (dir : string) (conf : Config)
  : M (TmplData * option Error) :=
  fun tr => Ret (f tr ctx dir conf) (tr ++ [EvRunFunc ctx dir conf]).

Definition call_WriteDockerCompose (dir : string) (tmpl : TmplData) : M (option Error) :=
  fun tr => Ret (WriteDockerCompose mach tr dir tmpl) (tr ++ [EvWrite dir tmpl]).

Definition call_startAlertCollector (ctx : Context) (dir : string) : M unit :=
  fun tr => Ret tt (tr ++ [EvCollector ctx dir]).

Definition call_cancel (ctx : Context) : M unit :=
  fun tr => Ret tt (tr ++ [EvCancel ctx]).

(** [for alert := range alerts] on the collector's channel: what it has
    yielded when it is closed; a channel that is never closed parks the
    loop. *)
Definition range_channel : M (list string) :=
  fun tr => let '(items, closed) := collected mach tr in
            if closed then Ret items tr else Block tr.

(** ** The helpers *)

Definition printDockerCompose (ctx : Context) (dir : string) : M (option Error) :=
  _ <~ log_line Info ctx "Printing docker-compose.yml" [] ;;
  err <~ cmd_Run ctx dir "cat" ["docker-compose.yml"] ;;
  match err with
  | Some e => ret (Some (Wrap e "exec cat docker-compose.yml" []))
  | None => ret None
  end.

Definition fixPerms (ctx : Context) (dir : string) : M (option Error) :=
  err <~ cmd_Run ctx dir "sudo" ["chmod"; "-R"; "a+wrX"; "."] ;;
  match err with
  | Some e => ret (Some (Wrap e "exec sudo chmod" []))
  | None => ret None
  end.

Definition execDown (ctx : Context) (dir : string) : M (option Error) :=
  _ <~ log_line Info ctx "Executing docker-compose down" [] ;;
  err <~ cmd_Run ctx dir "docker-compose" ["down"; "--remove-orphans"; "--timeout=2"] ;;
  match err with
  | Some e => ret (Some (Wrap e "run down" []))
  | None => ret None
  end.

Definition execUp (ctx : Context) (dir : string) : M (option Error) :=
  _ <~ log_line Info ctx "Executing docker-compose build" [] ;;
  built <~ cmd_CombinedOutput ctx dir "docker-compose" ["build"; "--parallel"] ;;
  match snd built with
  | Some e =>
      ret (Some (Wrap e "exec docker-compose build" [z_Str "output" (fst built)]))
  | None =>
      _ <~ log_line Info ctx "Executing docker-compose up" [] ;;
      err <~ cmd_Run ctx dir "docker-compose"
               ["up"; "--remove-orphans"; "--abort-on-container-exit"; "--quiet-pull"] ;;
      match err with
      | Some e =>
          done <~ ctx_Err_now ctx ;;
          match done with
          | Some c => ret (Some (Wrap (context_Err c) "exec docker-compose up" []))
          | None => ret (Some (Wrap e "exec docker-compose up" []))
          end
      | None => ret None
      end
  end.

Definition NewRunnerFunc (topic dir : string) (up : bool) (runFunc : RunFunc)
  : Context → M (TmplData * option Error) :=
  fun ctx =>
    let ctx := log_WithTopic ctx topic in
    loaded <~ call_LoadConfig dir ;;
    match snd loaded with
    | Some e =>
        if errors_Is mach e fs_ErrNotExist then
          ret (zero_TmplData,
               Some (New "compose config.json not found; maybe try `compose new` first"
                       [z_Str "dir" dir]))
        else ret (zero_TmplData, Some e)
    | None =>
        _ <~ log_line Info ctx "Running compose command" [z_Str "command" topic] ;;
        ran <~ call_RunFunc runFunc ctx dir (fst loaded) ;;
        match snd ran with
        | Some e => ret (zero_TmplData, Some e)
        | None =>
            if up then
              err <~ execUp ctx dir ;;
              ret (fst ran, err)
            else ret (fst ran, None)
        end
    end.

(** ** [Auto] *)

Record Step := mkStep {
  Name : string;
  StepRunFunc : RunFunc;
  TmplFunc : option (TmplData → TmplData);
  RunStep : bool
}.

Definition steps (conf : AutoConfig) : list Step :=
  [ mkStep "define" Define (DefineTmplFunc conf) false;
    mkStep "lock" Lock None false;
    mkStep "run" Run (RunTmplFunc conf) true ].

(** The [for _, step := range steps] loop: [Some e] when the body
    returned [e] from [Auto], [None] when the loop was left by [break] or
    ran out of steps. *)
Fixpoint Auto_loop (ctx : Context) (conf : AutoConfig) (ss : list Step)
  : M (option Error) :=
  match ss with
  | [] => ret None
  | step :: rest =>
      ran <~ NewRunnerFunc (Name step) (Dir conf) false (StepRunFunc step) ctx ;;
      match snd ran with
      | Some e => ret (Some e)
      | None =>
          perms <~ (if SudoPerms conf then fixPerms ctx (Dir conf) else ret None) ;;
          match perms with
          | Some e => ret (Some e)
          | None =>
              written <~ match TmplFunc step with
                         | Some f => call_WriteDockerCompose (Dir conf) (f (fst ran))
                         | None => ret None
                         end ;;
              match written with
              | Some e => ret (Some e)
              | None =>
                  printed <~ (if PrintYML conf
                              then printDockerCompose ctx (Dir conf) else ret None) ;;
                  match printed with
                  | Some e => ret (Some e)
                  | None =>
                      if RunStep step then ret None
                      else
                        up <~ execUp ctx (Dir conf) ;;
                        match up with
                        | Some e => ret (Some e)
                        | None => Auto_loop ctx conf rest
                        end
                  end
              end
          end
      end
  end.

(** The loop over the alerts: the marker sets the flag, anything else is
    appended to the messages. *)
Fixpoint collect_alerts (alerts : list string) (alertMsgs : list string)
  (alertSuccess : bool) : list string * bool :=
  match alerts with
  | [] => (alertMsgs, alertSuccess)
  | alert :: rest =>
      if String.eqb alert alertsPolled
      then collect_alerts rest alertMsgs true
      else collect_alerts rest (alertMsgs ++ [alert]) alertSuccess
  end.

(** From the loop over the alerts to the [return]. *)
Definition Auto_alerts (ctx : Context) : M (option Error) :=
  alerts <~ range_channel ;;
  let '(alertMsgs, alertSuccess) := collect_alerts alerts [] false in
  if negb alertSuccess then
    _ <~ log_line Error_level ctx "Alerts couldn't be polled" [] ;;
    ret None
  else if (0 <? length alertMsgs)%nat then
    ret (Some (New "alerts detected" [z_Any "alerts" alertMsgs]))
  else
    _ <~ log_line Info ctx "No alerts detected" [] ;;
    ret None.

(** From the final [execUp] to the [return], before the deferred calls
    run. *)
Definition Auto_verdict (ctx : Context) (conf : AutoConfig) : M (option Error) :=
  up <~ execUp ctx (Dir conf) ;;
  match up with
  | Some e =>
      if negb (errors_Is mach e (context_Err DeadlineExceeded)) then ret (Some e)
      else Auto_alerts ctx
  | None => Auto_alerts ctx
  end.

Definition Auto (ctx : Context) (conf : AutoConfig) : M (option Error) :=
  let ctx := log_WithTopic ctx "auto" in
  looped <~ Auto_loop ctx conf (steps conf) ;;
  match looped with
  | Some e => ret (Some e)
  | None =>
      let timed := (0 <? AlertTimeout conf)%Z in
      _ <~ (if timed then execDown ctx (Dir conf) else ret None) ;;
      let ctx' := if timed then context_WithTimeout ctx (AlertTimeout conf) else ctx in
      _ <~ call_startAlertCollector ctx' (Dir conf) ;;
      result <~ Auto_verdict ctx' conf ;;
      _ <~ execDown context_Background (Dir conf) ;;
      _ <~ (if timed then call_cancel ctx' else ret tt) ;;
      ret result
  end.

(** ** The commands of a trace *)

Definition Command : Type := Context * string * list string.

Definition command_of (e : Event) : option Command :=
  match e with
  | EvExec ctx _ name args _ => Some (ctx, name, args)
  | _ => None
  end.

Definition commands (evs : list Event) : list Command := omap command_of evs.

Definition is_collector (e : Event) : bool :=
  match e with EvCollector _ _ => true | _ => false end.

Definition build_cmd (ctx : Context) : Command :=
  (ctx, "docker-compose", ["build"; "--parallel"]).
Definition up_cmd (ctx : Context) : Command :=
  (ctx, "docker-compose",
   ["up"; "--remove-orphans"; "--abort-on-container-exit"; "--quiet-pull"]).
Definition down_cmd (ctx : Context) : Command :=
  (ctx, "docker-compose", ["down"; "--remove-orphans"; "--timeout=2"]).
Definition chmod_cmd (ctx : Context) : Command :=
  (ctx, "sudo", ["chmod"; "-R"; "a+wrX"; "."]).
Definition cat_cmd (ctx : Context) : Command :=
  (ctx, "cat", ["docker-compose.yml"]).

(** The commands of one step of the loop, and of the loop, when nothing
    fails. *)
Definition step_plan (ctx : Context) (conf : AutoConfig) (step : Step) : list Command :=
  (if SudoPerms conf then [chmod_cmd ctx] else []) ++
  (if PrintYML conf then [cat_cmd ctx] else []) ++
  (if RunStep step then [] else [build_cmd ctx; up_cmd ctx]).

Fixpoint loop_plan (ctx : Context) (conf : AutoConfig) (ss : list Step) : list Command :=
  match ss with
  | [] => []
  | step :: rest =>
      step_plan ctx conf step ++ (if RunStep step then [] else loop_plan ctx conf rest)
  end.

(** What the loop over the alerts computes, said with [filter]. *)
Definition is_marker (alert : string) : bool := String.eqb alert alertsPolled.

Definition alert_messages (alerts : list string) : list string :=
  List.filter (λ a, negb (is_marker a)) alerts.

Definition alerts_polled (alerts : list string) : bool := existsb is_marker alerts.

(** The events of the build, of [up] and of [down]. *)
Definition build_events (ctx : Context) (dir : string) : list Event :=
  [EvLog Info ctx "Executing docker-compose build" [];
   EvExec ctx dir "docker-compose" ["build"; "--parallel"] true].

Definition up_events (ctx : Context) (dir : string) : list Event :=
  [EvLog Info ctx "Executing docker-compose up" [];
   EvExec ctx dir "docker-compose"
     ["up"; "--remove-orphans"; "--abort-on-container-exit"; "--quiet-pull"] false].

Definition down_events (ctx : Context) (dir : string) : list Event :=
  [EvLog Info ctx "Executing docker-compose down" [];
   EvExec ctx dir "docker-compose" ["down"; "--remove-orphans"; "--timeout=2"] false].

(** A computation that returns, starts no collector, and runs the
    commands of [plan] in order: all of them when it returns nil, the
    first of them when it returns an error. *)
Definition follows (m : M (option Error)) (plan : list Command) : Prop :=
  ∀ tr, ∃ r evs, m tr = Ret r (tr ++ evs) ∧
    Forall (λ e, is_collector e = false) evs ∧
    commands evs `prefix_of` plan ∧
    (r = None → commands evs = plan).

(** ** Lemmas on the helpers *)

Lemma commands_app evs1 evs2 : commands (evs1 ++ evs2) = commands evs1 ++ commands evs2.
Proof. unfold commands. apply omap_app. Qed.

Lemma fixPerms_runs ctx dir tr :
  ∃ r, fixPerms ctx dir tr =
         Ret r (tr ++ [EvExec ctx dir "sudo" ["chmod"; "-R"; "a+wrX"; "."] false]).
Proof.
  unfold fixPerms, bind, cmd_Run.
  destruct (fst (run_cmd mach tr ctx dir "sudo" ["chmod"; "-R"; "a+wrX"; "."]));
    by eexists.
Qed.

Lemma printDockerCompose_runs ctx dir tr :
  ∃ r, printDockerCompose ctx dir tr =
         Ret r (tr ++ [EvLog Info ctx "Printing docker-compose.yml" [];
                       EvExec ctx dir "cat" ["docker-compose.yml"] false]).
Proof.
  unfold printDockerCompose, bind, cmd_Run, log_line. simpl.
  destruct (fst (run_cmd mach _ ctx dir "cat" ["docker-compose.yml"]));
    eexists; by rewrite <- app_assoc.
Qed.

Lemma execDown_runs ctx dir tr :
  ∃ r, execDown ctx dir tr =
         Ret r (tr ++ [EvLog Info ctx "Executing docker-compose down" [];
                       EvExec ctx dir "docker-compose"
                         ["down"; "--remove-orphans"; "--timeout=2"] false]).
Proof.
  unfold execDown, bind, cmd_Run, log_line. simpl.
  destruct (fst (run_cmd mach _ ctx dir "docker-compose" _));
    eexists; by rewrite <- app_assoc.
Qed.

(** The three ways [execUp] ends. *)
Lemma execUp_cases ctx dir tr :
  (∃ e out, execUp ctx dir tr =
              Ret (Some (Wrap e "exec docker-compose build" [z_Str "output" out]))
                  (tr ++ build_events ctx dir)) ∨
  execUp ctx dir tr = Ret None (tr ++ build_events ctx dir ++ up_events ctx dir) ∨
  (∃ e, fst (run_cmd mach (tr ++ build_events ctx dir ++
                             [EvLog Info ctx "Executing docker-compose up" []])
               ctx dir "docker-compose"
               ["up"; "--remove-orphans"; "--abort-on-container-exit"; "--quiet-pull"])
        = Some e ∧
        execUp ctx dir tr =
          Ret (Some (Wrap (match ctx_Err mach (tr ++ build_events ctx dir ++ up_events ctx dir)
                                   ctx with
                           | Some c => context_Err c
                           | None => e
                           end) "exec docker-compose up" []))
              (tr ++ build_events ctx dir ++ up_events ctx dir)).
Proof.
  unfold execUp, bind, cmd_Run, cmd_CombinedOutput, log_line, ctx_Err_now,
    build_events, up_events.
  destruct (run_cmd mach (tr ++ [EvLog Info ctx "Executing docker-compose build" []])
              ctx dir "docker-compose" ["build"; "--parallel"]) as [[e|] out] eqn:Eb;
    simpl.
  - left. exists e, out. by rewrite <- app_assoc.
  - right. rewrite <- !app_assoc. simpl.
    destruct (fst (run_cmd mach _ ctx dir "docker-compose"
                     ["up"; "--remove-orphans"; "--abort-on-container-exit";
                      "--quiet-pull"])) as [e|] eqn:Eu.
    + right. exists e. split; [done|].
      by destruct (ctx_Err mach _ ctx).
    + by left.
Qed.

(** X8. When the build exits with an error, [execUp] returns that error
    wrapped with the output the build produced and does not run [up];
    when the build exits without error it runs [up], returns nil when
    [up] exits without error, and otherwise returns, wrapped, the
    context's error if the context is done by then and the error of [up]
    if it is not.  It returns nil in no other case. *)
Theorem execUp_build_before_up ctx dir tr :
  let built := run_cmd mach (tr ++ [EvLog Info ctx "Executing docker-compose build" []])
                 ctx dir "docker-compose" ["build"; "--parallel"] in
  let up := fst (run_cmd mach
                   (tr ++ build_events ctx dir ++
                    [EvLog Info ctx "Executing docker-compose up" []])
                   ctx dir "docker-compose"
                   ["up"; "--remove-orphans"; "--abort-on-container-exit";
                    "--quiet-pull"]) in
  let after_up := tr ++ build_events ctx dir ++ up_events ctx dir in
  (∀ e, fst built = Some e →
     execUp ctx dir tr =
       Ret (Some (Wrap e "exec docker-compose build" [z_Str "output" (snd built)]))
           (tr ++ build_events ctx dir) ∧
     commands (build_events ctx dir) = [build_cmd ctx]) ∧
  (fst built = None → up = None →
     execUp ctx dir tr = Ret None after_up ∧
     commands (build_events ctx dir ++ up_events ctx dir) =
       [build_cmd ctx; up_cmd ctx]) ∧
  (∀ e, fst built = None → up = Some e →
     execUp ctx dir tr =
       Ret (Some (Wrap (match ctx_Err mach after_up ctx with
                        | Some c => context_Err c
                        | None => e
                        end) "exec docker-compose up" []))
           after_up) ∧
  (∀ tr', execUp ctx dir tr = Ret None tr' →
     fst built = None ∧ up = None ∧ tr' = after_up).
Proof.
  intros built up after_up. subst built up after_up.
  unfold execUp, bind, cmd_Run, cmd_CombinedOutput, log_line, ctx_Err_now,
    build_events, up_events.
  destruct (run_cmd mach (tr ++ [EvLog Info ctx "Executing docker-compose build" []])
              ctx dir "docker-compose" ["build"; "--parallel"]) as [[e|] out] eqn:Eb;
    simpl.
  - split; [|split; [|split]]; try done.
    intros e' [= <-]. by rewrite <- app_assoc.
  - rewrite <- !app_assoc. simpl.
    destruct (fst (run_cmd mach _ ctx dir "docker-compose"
                     ["up"; "--remove-orphans"; "--abort-on-container-exit";
                      "--quiet-pull"])) as [e|] eqn:Eu.
    + split; [done|]. split; [done|]. split.
      * intros e' _ [= <-]. by destruct (ctx_Err mach _ ctx).
      * intros tr' H. by destruct (ctx_Err mach _ ctx).
    + split; [done|]. split; [done|]. split; [done|].
      intros tr' [= <-]. done.
Qed.

(** ** The runner *)

Lemma NewRunnerFunc_quiet topic dir f ctx tr :
  ∃ d err evs,
    NewRunnerFunc topic dir false f ctx tr = Ret (d, err) (tr ++ evs) ∧
    commands evs = [] ∧ Forall (λ e, is_collector e = false) evs ∧
    (err ≠ None → d = zero_TmplData).
Proof.
  unfold NewRunnerFunc, bind, call_LoadConfig, call_RunFunc, log_line.
  destruct (LoadConfig mach tr dir) as [conf [e|]] eqn:El; simpl.
  - destruct (errors_Is mach e fs_ErrNotExist);
      eexists _, _, _; (split; [done|]); repeat split; by repeat constructor.
  - destruct (f _ (log_WithTopic ctx topic) dir conf) as [d [e|]] eqn:Ef; simpl.
    + eexists _, _, _. split; [by rewrite <- !app_assoc|].
      repeat split; by repeat constructor.
    + eexists _, _, _. split; [by rewrite <- !app_assoc|].
      repeat split; by repeat constructor.
Qed.

(** X9. The runner answers a missing [config.json] with its own error
    and any other load error as it is, in both cases with the zero
    template data and without calling the run function or any command.
    Without [up] it never runs a command and returns the zero data with
    every error; with [up] it returns nil only after the build and [up]
    ran under its topic, and it hands out the data of the run function
    even when [execUp] then fails. *)
Theorem NewRunnerFunc_answers topic dir up f ctx tr :
  (∀ conf e, LoadConfig mach tr dir = (conf, Some e) →
     NewRunnerFunc topic dir up f ctx tr =
       Ret (zero_TmplData,
            Some (if errors_Is mach e fs_ErrNotExist
                  then New "compose config.json not found; maybe try `compose new` first"
                         [z_Str "dir" dir]
                  else e))
           (tr ++ [EvLoadConfig dir])) ∧
  (up = false →
     ∃ d err evs, NewRunnerFunc topic dir up f ctx tr = Ret (d, err) (tr ++ evs) ∧
       commands evs = [] ∧ (err ≠ None → d = zero_TmplData)) ∧
  (up = true →
     ∃ d err evs, NewRunnerFunc topic dir up f ctx tr = Ret (d, err) (tr ++ evs) ∧
       (err = None →
          commands evs = [build_cmd (log_WithTopic ctx topic);
                          up_cmd (log_WithTopic ctx topic)]) ∧
       (commands evs ≠ [] →
          d = fst (f (tr ++ [EvLoadConfig dir;
                             EvLog Info (log_WithTopic ctx topic)
                               "Running compose command" [z_Str "command" topic]])
                     (log_WithTopic ctx topic) dir (fst (LoadConfig mach tr dir))))).
Proof.
  split; [|split].
  - intros conf e El. unfold NewRunnerFunc, bind, call_LoadConfig. rewrite El. simpl.
    by destruct (errors_Is mach e fs_ErrNotExist).
  - intros ->. destruct (NewRunnerFunc_quiet topic dir f ctx tr)
      as (d & err & evs & E & Hc & _ & Hz).
    by exists d, err, evs.
  - intros ->. unfold NewRunnerFunc, bind, call_LoadConfig, call_RunFunc, log_line.
    destruct (LoadConfig mach tr dir) as [conf [e|]] eqn:El; simpl.
    + destruct (errors_Is mach e fs_ErrNotExist);
        eexists _, _, _; (split; [done|]); by split.
    + rewrite <- !app_assoc. simpl.
      destruct (f _ (log_WithTopic ctx topic) dir conf) as [d [e|]] eqn:Ef; simpl.
      * eexists _, _, _. split; [done|]. by split.
      * destruct (execUp_cases (log_WithTopic ctx topic) dir
                    (tr ++ [EvLoadConfig dir;
                            EvLog Info (log_WithTopic ctx topic) "Running compose command"
                              [z_Str "command" topic];
                            EvRunFunc (log_WithTopic ctx topic) dir conf]))
          as [(e & out & E)|[E|(e & He & E)]];
          rewrite <- !app_assoc in E; simpl in E; rewrite E;
          eexists _, _, _; (split; [done|]); by split.
Qed.

(** ** The loop of [Auto] *)

Lemma follows_ret_None : follows (ret None) [].
Proof.
  intros tr. exists None, []. rewrite app_nil_r. by repeat split.
Qed.

Lemma follows_bind m k plan1 plan2 :
  follows m plan1 → follows k plan2 →
  follows (bind m (λ r, match r with Some e => ret (Some e) | None => k end))
          (plan1 ++ plan2).
Proof.
  intros Hm Hk tr. destruct (Hm tr) as (r & evs & E & Hc & Hp & Hn).
  unfold bind. rewrite E. destruct r as [e|].
  - exists (Some e), evs. split; [done|]. split; [done|].
    split; [by apply prefix_app_r|done].
  - destruct (Hk (tr ++ evs)) as (r' & evs' & E' & Hc' & Hp' & Hn').
    exists r', (evs ++ evs'). rewrite E', <- app_assoc. split; [done|].
    split; [by apply Forall_app|]. rewrite commands_app, (Hn eq_refl).
    split; [by apply prefix_app|]. intros Hr. by rewrite (Hn' Hr).
Qed.

Lemma follows_fixPerms ctx dir : follows (fixPerms ctx dir) [chmod_cmd ctx].
Proof.
  intros tr. destruct (fixPerms_runs ctx dir tr) as [r ->].
  eexists _, _. split; [done|]. by repeat split; repeat constructor.
Qed.

Lemma follows_printDockerCompose ctx dir :
  follows (printDockerCompose ctx dir) [cat_cmd ctx].
Proof.
  intros tr. destruct (printDockerCompose_runs ctx dir tr) as [r ->].
  eexists _, _. split; [done|]. by repeat split; repeat constructor.
Qed.

Lemma follows_write dir tmpl : follows (call_WriteDockerCompose dir tmpl) [].
Proof.
  intros tr. unfold call_WriteDockerCompose.
  eexists _, _. split; [done|]. by repeat split; repeat constructor.
Qed.

Lemma follows_execUp ctx dir : follows (execUp ctx dir) [build_cmd ctx; up_cmd ctx].
Proof.
  intros tr. destruct (execUp_cases ctx dir tr) as [(e & out & ->)|[->|(e & He & ->)]];
    eexists _, _; (split; [done|]); (split; [by repeat constructor|]).
  - split; [|done]. by exists [up_cmd ctx].
  - by split.
  - by split.
Qed.

Lemma Auto_loop_follows ctx conf ss :
  follows (Auto_loop ctx conf ss) (loop_plan ctx conf ss).
Proof.
  induction ss as [|step rest IH]; [apply follows_ret_None|].
  intros tr. simpl. unfold bind at 1.
  destruct (NewRunnerFunc_quiet (Name step) (Dir conf) (StepRunFunc step) ctx tr)
    as (d & err & evs0 & -> & Hc0 & Hn0 & _).
  simpl. destruct err as [e|].
  - exists (Some e), evs0. split; [done|]. split; [done|].
    rewrite Hc0. split; [apply prefix_nil|done].
  - assert (follows
              (bind (if SudoPerms conf then fixPerms ctx (Dir conf) else ret None)
                 (λ r, match r with
                       | Some e => ret (Some e)
                       | None =>
                 bind (match TmplFunc step with
                       | Some f => call_WriteDockerCompose (Dir conf) (f d)
                       | None => ret None
                       end)
                 (λ r, match r with
                       | Some e => ret (Some e)
                       | None =>
                 bind (if PrintYML conf
                       then printDockerCompose ctx (Dir conf) else ret None)
                 (λ r, match r with
                       | Some e => ret (Some e)
                       | None =>
                 if RunStep step then ret None
                 else bind (execUp ctx (Dir conf))
                        (λ r, match r with
                              | Some e => ret (Some e)
                              | None => Auto_loop ctx conf rest
                              end)
                       end)
                       end)
                       end))
              ((if SudoPerms conf then [chmod_cmd ctx] else []) ++ [] ++
               (if PrintYML conf then [cat_cmd ctx] else []) ++
               (if RunStep step then []
                else [build_cmd ctx; up_cmd ctx] ++ loop_plan ctx conf rest))) as Hbody.
    { apply follows_bind.
      { destruct (SudoPerms conf); [apply follows_fixPerms|apply follows_ret_None]. }
      apply follows_bind.
      { destruct (TmplFunc step); [apply follows_write|apply follows_ret_None]. }
      apply follows_bind.
      { destruct (PrintYML conf);
          [apply follows_printDockerCompose|apply follows_ret_None]. }
      destruct (RunStep step); [apply follows_ret_None|].
      apply follows_bind; [apply follows_execUp|apply IH]. }
    destruct (Hbody (tr ++ evs0)) as (r & evs & E & Hc & Hp & Hn).
    exists r, (evs0 ++ evs). rewrite app_assoc. split; [exact E|].
    split; [by apply Forall_app|]. rewrite commands_app, Hc0. simpl.
    assert (step_plan ctx conf step ++
              (if RunStep step then [] else loop_plan ctx conf rest) =
            (if SudoPerms conf then [chmod_cmd ctx] else []) ++ [] ++
            (if PrintYML conf then [cat_cmd ctx] else []) ++
            (if RunStep step then []
             else [build_cmd ctx; up_cmd ctx] ++ loop_plan ctx conf rest)) as ->.
    { unfold step_plan. rewrite <- !app_assoc. simpl.
      destruct (RunStep step); by rewrite ?app_nil_r. }
    by split.
Qed.

Lemma steps_plan ctx conf :
  loop_plan ctx conf (steps conf) =
  ((if SudoPerms conf then [chmod_cmd ctx] else []) ++
   (if PrintYML conf then [cat_cmd ctx] else []) ++ [build_cmd ctx; up_cmd ctx]) ++
  ((if SudoPerms conf then [chmod_cmd ctx] else []) ++
   (if PrintYML conf then [cat_cmd ctx] else []) ++ [build_cmd ctx; up_cmd ctx]) ++
  ((if SudoPerms conf then [chmod_cmd ctx] else []) ++
   (if PrintYML conf then [cat_cmd ctx] else [])).
Proof. simpl. unfold step_plan. simpl. by rewrite !app_nil_r. Qed.

Lemma steps_plan_no_down ctx conf c : down_cmd c ∉ loop_plan ctx conf (steps conf).
Proof.
  rewrite steps_plan. intros Hin.
  destruct (SudoPerms conf), (PrintYML conf); simpl in Hin;
    repeat (apply elem_of_cons in Hin as [Hin|Hin]; [discriminate Hin|]);
    by apply elem_of_nil in Hin.
Qed.

Lemma Auto_loop_steps ctx conf tr :
  ∃ r evs, Auto_loop ctx conf (steps conf) tr = Ret r (tr ++ evs) ∧
    commands evs `prefix_of` loop_plan ctx conf (steps conf) ∧
    (r = None → commands evs = loop_plan ctx conf (steps conf)) ∧
    (∀ c, down_cmd c ∉ commands evs) ∧
    Forall (λ e, is_collector e = false) evs.
Proof.
  destruct (Auto_loop_follows ctx conf (steps conf) tr) as (r & evs & E & Hc & Hp & Hn).
  exists r, evs. split; [done|]. split; [done|]. split; [done|]. split; [|done].
  intros c Hin. apply (steps_plan_no_down ctx conf c).
  destruct Hp as [k ->]. apply elem_of_app. by left.
Qed.

(** X10. The loop of [Auto] runs its commands in one fixed order: for
    [define] and for [lock] the optional [chmod], the optional [cat], the
    build and [up]; for [run] the optional [chmod] and [cat] only.
    Whatever its outcome it has run a first part of them, and all of them
    when it ends without an error; it never runs [docker-compose down]
    and never starts the alert collector. *)
Theorem Auto_loop_in_order ctx conf tr :
  let before_up := (if SudoPerms conf then [chmod_cmd ctx] else []) ++
                   (if PrintYML conf then [cat_cmd ctx] else []) in
  let plan := (before_up ++ [build_cmd ctx; up_cmd ctx]) ++
              (before_up ++ [build_cmd ctx; up_cmd ctx]) ++ before_up in
  ∃ evs, trace_of (Auto_loop ctx conf (steps conf) tr) = tr ++ evs ∧
    commands evs `prefix_of` plan ∧
    (∀ tr', Auto_loop ctx conf (steps conf) tr = Ret None tr' → commands evs = plan) ∧
    (∀ c, down_cmd c ∉ commands evs) ∧
    Forall (λ e, is_collector e = false) evs.
Proof.
  intros before_up plan. subst before_up plan.
  destruct (Auto_loop_steps ctx conf tr) as (r & evs & E & Hp & Hn & Hd & Hc).
  exists evs. rewrite steps_plan in Hp, Hn.
  rewrite <- !app_assoc in Hp, Hn. rewrite <- !app_assoc.
  rewrite E. simpl. split; [done|]. split; [done|]. split; [|done].
  intros tr' [= -> _]. by apply Hn.
Qed.

(** ** [Auto] and its deferred calls *)

Lemma execDown_events ctx dir tr :
  ∃ r, execDown ctx dir tr = Ret r (tr ++ down_events ctx dir).
Proof. apply execDown_runs. Qed.

Lemma Auto_loop_failed ctx conf tr e tr1 :
  Auto_loop (log_WithTopic ctx "auto") conf (steps conf) tr = Ret (Some e) tr1 →
  Auto ctx conf tr = Ret (Some e) tr1.
Proof. intros E. unfold Auto, bind. by rewrite E. Qed.

Lemma Auto_loop_passed ctx conf tr tr1 :
  let actx := log_WithTopic ctx "auto" in
  let timed := (0 <? AlertTimeout conf)%Z in
  let ctx' := if timed then context_WithTimeout actx (AlertTimeout conf) else actx in
  Auto_loop actx conf (steps conf) tr = Ret None tr1 →
  Auto ctx conf tr =
    match Auto_verdict ctx' conf
            (tr1 ++ (if timed then down_events actx (Dir conf) else []) ++
             [EvCollector ctx' (Dir conf)]) with
    | Ret r tr3 =>
        Ret r (tr3 ++ down_events context_Background (Dir conf) ++
               (if timed then [EvCancel ctx'] else []))
    | Block tr3 => Block tr3
    end.
Proof.
  intros actx timed ctx' E. subst actx timed ctx'.
  unfold Auto. unfold bind at 1. rewrite E. cbv zeta.
  destruct (0 <? AlertTimeout conf)%Z.
  - unfold bind at 1.
    destruct (execDown_events (log_WithTopic ctx "auto") (Dir conf) tr1) as [r0 ->].
    unfold bind at 1, call_startAlertCollector at 1. rewrite <- app_assoc.
    unfold bind at 1.
    destruct (Auto_verdict _ conf _) as [r tr3|tr3]; [|done].
    unfold bind at 1.
    destruct (execDown_events context_Background (Dir conf) tr3) as [r1 ->].
    unfold bind, call_cancel, ret. by rewrite <- app_assoc.
  - unfold bind at 1, ret at 1.
    unfold bind at 1, call_startAlertCollector at 1. simpl "++".
    unfold bind at 1.
    destruct (Auto_verdict _ conf _) as [r tr3|tr3]; [|done].
    unfold bind at 1.
    destruct (execDown_events context_Background (Dir conf) tr3) as [r1 ->].
    by unfold bind, ret.
Qed.

(** X11. When a step of the loop fails, [Auto] returns that error as it
    is with nothing done after it: no collector, no [down].  When the
    loop passes, [Auto] runs [down] first if a timeout is set, starts the
    collector under the context with that timeout, and, whatever the
    verdict it then returns, ends with [docker-compose down] under the
    background context followed by the cancellation of the timeout; the
    outcome of neither [down] changes what [Auto] returns. *)
Theorem Auto_cleans_up ctx conf tr :
  let actx := log_WithTopic ctx "auto" in
  let timed := (0 <? AlertTimeout conf)%Z in
  let ctx' := if timed then context_WithTimeout actx (AlertTimeout conf) else actx in
  ∃ looped evs, Auto_loop actx conf (steps conf) tr = Ret looped (tr ++ evs) ∧
    match looped with
    | Some e =>
        Auto ctx conf tr = Ret (Some e) (tr ++ evs) ∧
        Forall (λ e, is_collector e = false) evs ∧
        (∀ c, down_cmd c ∉ commands evs)
    | None =>
        let tr2 := tr ++ evs ++ (if timed then down_events actx (Dir conf) else []) ++
                   [EvCollector ctx' (Dir conf)] in
        match Auto_verdict ctx' conf tr2 with
        | Ret r tr3 =>
            Auto ctx conf tr =
              Ret r (tr3 ++ down_events context_Background (Dir conf) ++
                     (if timed then [EvCancel ctx'] else []))
        | Block tr3 => Auto ctx conf tr = Block tr3
        end
    end.
Proof.
  intros actx timed ctx'.
  destruct (Auto_loop_steps actx conf tr) as (looped & evs & E & _ & _ & Hd & Hc).
  exists looped, evs. split; [exact E|].
  destruct looped as [e|].
  - split; [by apply Auto_loop_failed|done].
  - rewrite (Auto_loop_passed ctx conf tr (tr ++ evs) E).
    fold actx. fold timed. fold ctx'. rewrite <- app_assoc. cbv zeta.
    by destruct (Auto_verdict ctx' conf _).
Qed.

(** ** The verdict on the alerts *)

Lemma collect_alerts_spec alerts msgs ok :
  collect_alerts alerts msgs ok =
  (msgs ++ alert_messages alerts, (ok || alerts_polled alerts)%bool).
Proof.
  unfold alert_messages, alerts_polled, is_marker.
  revert msgs ok. induction alerts as [|a alerts IH]; intros msgs ok; simpl.
  - by rewrite app_nil_r, orb_false_r.
  - destruct (String.eqb a alertsPolled); simpl.
    + by rewrite IH, orb_true_r.
    + by rewrite IH, <- app_assoc.
Qed.

Lemma Auto_alerts_cases ctx tr :
  Auto_alerts ctx tr =
  let '(alerts, closed) := collected mach tr in
  if closed then
    if negb (alerts_polled alerts) then
      Ret None (tr ++ [EvLog Error_level ctx "Alerts couldn't be polled" []])
    else
      match alert_messages alerts with
      | [] => Ret None (tr ++ [EvLog Info ctx "No alerts detected" []])
      | _ :: _ => Ret (Some (New "alerts detected" [z_Any "alerts" (alert_messages alerts)])) tr
      end
  else Block tr.
Proof.
  unfold Auto_alerts, bind, range_channel.
  destruct (collected mach tr) as [alerts [|]]; [|done].
  rewrite collect_alerts_spec. simpl.
  destruct (alerts_polled alerts); simpl; [|done].
  by destruct (alert_messages alerts).
Qed.

(** X12. The loop over the alerts keeps, in their order, the alerts that
    are not the marker, and notes whether the marker came.  After the
    final [execUp], an error of it that is not a passed deadline is
    returned as it is without a look at the alerts; otherwise [Auto]
    waits for the collector's channel to be closed and returns nil when
    the marker never came, whatever other alerts did, the error
    "alerts detected" with the other alerts when the marker came and
    there are some, and nil when the marker came alone. *)
Theorem Auto_verdict_on_alerts ctx conf tr :
  (∀ alerts, collect_alerts alerts [] false =
             (alert_messages alerts, alerts_polled alerts)) ∧
  (∀ e tr1, execUp ctx (Dir conf) tr = Ret (Some e) tr1 →
     errors_Is mach e (context_Err DeadlineExceeded) = false →
     Auto_verdict ctx conf tr = Ret (Some e) tr1) ∧
  (∀ up tr1, execUp ctx (Dir conf) tr = Ret up tr1 →
     (∀ e, up = Some e → errors_Is mach e (context_Err DeadlineExceeded) = true) →
     (∀ alerts, collected mach tr1 = (alerts, false) →
        Auto_verdict ctx conf tr = Block tr1) ∧
     (∀ alerts, collected mach tr1 = (alerts, true) →
        (alerts_polled alerts = false →
           Auto_verdict ctx conf tr =
             Ret None (tr1 ++ [EvLog Error_level ctx "Alerts couldn't be polled" []])) ∧
        (alerts_polled alerts = true → alert_messages alerts ≠ [] →
           Auto_verdict ctx conf tr =
             Ret (Some (New "alerts detected" [z_Any "alerts" (alert_messages alerts)]))
                 tr1) ∧
        (alerts_polled alerts = true → alert_messages alerts = [] →
           Auto_verdict ctx conf tr =
             Ret None (tr1 ++ [EvLog Info ctx "No alerts detected" []])))).
Proof.
  split; [|split].
  - intros alerts. by rewrite collect_alerts_spec.
  - intros e tr1 E He. unfold Auto_verdict, bind. by rewrite E, He.
  - intros up tr1 E Hup.
    assert (Auto_verdict ctx conf tr = Auto_alerts ctx tr1) as ->.
    { unfold Auto_verdict, bind. rewrite E. destruct up as [e|]; [|done].
      by rewrite (Hup e eq_refl). }
    rewrite Auto_alerts_cases. split.
    + by intros alerts ->.
    + intros alerts ->. split; [|split].
      * by intros ->.
      * intros -> Hne. by destruct (alert_messages alerts).
      * by intros -> ->.
Qed.

(** X13. Without a loadable configuration [Auto] stops at once: it
    returns the runner's error for the first step, the dedicated one when
    [config.json] is missing, and has run no command, started no
    collector and called no run function. *)
Theorem Auto_needs_config ctx conf tr c e :
  LoadConfig mach tr (Dir conf) = (c, Some e) →
  Auto ctx conf tr =
    Ret (Some (if errors_Is mach e fs_ErrNotExist
               then New "compose config.json not found; maybe try `compose new` first"
                      [z_Str "dir" (Dir conf)]
               else e))
        (tr ++ [EvLoadConfig (Dir conf)]).
Proof.
  intros El. apply Auto_loop_failed. simpl.
  unfold bind at 1, NewRunnerFunc, bind, call_LoadConfig. rewrite El. simpl.
  by destruct (errors_Is mach e fs_ErrNotExist).
Qed.

End Auto.

Arguments Ret {Config TmplData A} a tr.
Arguments Block {Config TmplData A} tr.

(** ** A run on a machine where everything works *)

(** The configuration is the unit and the template data a number; the
    marker of the collector is spelled out here for the example only. *)
Definition marker : string := "alerts_polled".

(** Walks the chain of wrapped errors down to a context error or the
    missing-file error. *)
Fixpoint is_in_chain (e target : Error) : bool :=
  match e, target with
  | context_Err c, context_Err c' =>
      match c, c' with
      | Canceled, Canceled | DeadlineExceeded, DeadlineExceeded => true
      | _, _ => false
      end
  | fs_ErrNotExist, fs_ErrNotExist => true
  | Wrap cause _ _, _ => is_in_chain cause target
  | _, _ => false
  end.

(** Every command succeeds, the context stays live, the configuration
    loads, and the collector reports the given alerts. *)
Definition sound (alerts : list string) : @Machine unit nat :=
  mkMachine (λ _ _ _ _ _, (None, EmptyString)) (λ _ _, None) (λ _ _, (tt, None))
            (λ _ _ _, None) (λ _, (alerts, true)) is_in_chain.

(** No configuration file. *)
Definition bare : @Machine unit nat :=
  mkMachine (λ _ _ _ _ _, (None, EmptyString)) (λ _ _, None)
            (λ _ _, (tt, Some (Wrap fs_ErrNotExist "read config" [])))
            (λ _ _ _, None) (λ _, ([], true)) is_in_chain.

(** The build fails. *)
Definition broken : @Machine unit nat :=
  mkMachine (λ _ _ _ name args,
               match args with
               | "build" :: _ => (Some (foreign "exit status 1"), "no space left")
               | _ => (None, EmptyString)
               end)
            (λ _ _, None) (λ _ _, (tt, None)) (λ _ _ _, None) (λ _, ([], true))
            is_in_chain.

(** [up] under a context with a timeout is cut short by the deadline. *)
Definition timing_out : @Machine unit nat :=
  mkMachine (λ _ ctx _ name args,
               match ctx, args with
               | context_WithTimeout _ _, "up" :: _ =>
                   (Some (foreign "signal: killed"), EmptyString)
               | _, _ => (None, EmptyString)
               end)
            (λ _ ctx, match ctx with
                      | context_WithTimeout _ _ => Some DeadlineExceeded
                      | _ => None
                      end)
            (λ _ _, (tt, None)) (λ _ _ _, None)
            (λ _, ([marker; "high latency"; marker; "missed duties"], true))
            is_in_chain.

Definition a_run_func (n : nat) : @RunFunc unit nat := λ _ _ _ _, (n, None).

Definition plain : @AutoConfig nat := mkAutoConfig "/tmp/compose" 0 false false None None.
Definition timed_conf : @AutoConfig nat :=
  mkAutoConfig "/tmp/compose" 60000000000 true true None (Some S).

Lemma execUp_build_before_up_witness :
  execUp broken (given 0) "/tmp/compose" [] =
    Ret (Some (Wrap (foreign "exit status 1") "exec docker-compose build"
                 [z_Str "output" "no space left"]))
        (build_events (given 0) "/tmp/compose") ∧
  execUp (sound []) (given 0) "/tmp/compose" [] =
    Ret None (build_events (given 0) "/tmp/compose" ++ up_events (given 0) "/tmp/compose") ∧
  execUp timing_out (context_WithTimeout (given 0) 5) "/tmp/compose" [] =
    Ret (Some (Wrap (context_Err DeadlineExceeded) "exec docker-compose up" []))
        (build_events (context_WithTimeout (given 0) 5) "/tmp/compose" ++
         up_events (context_WithTimeout (given 0) 5) "/tmp/compose").
Proof.
  split; [|split].
  - destruct (execUp_build_before_up broken (given 0) "/tmp/compose" [])
      as (Hbuild & _).
    apply (Hbuild (foreign "exit status 1") eq_refl).
  - destruct (execUp_build_before_up (sound []) (given 0) "/tmp/compose" [])
      as (_ & Hok & _).
    apply (Hok eq_refl eq_refl).
  - destruct (execUp_build_before_up timing_out (context_WithTimeout (given 0) 5)
                "/tmp/compose" []) as (_ & _ & Hup & _).
    apply (Hup (foreign "signal: killed") eq_refl eq_refl).
Defined.

Lemma NewRunnerFunc_answers_witness :
  NewRunnerFunc 0 bare "define" "/tmp/compose" false (a_run_func 7) (given 0) [] =
    Ret (0, Some (New "compose config.json not found; maybe try `compose new` first"
                    [z_Str "dir" "/tmp/compose"]))
        [EvLoadConfig "/tmp/compose"].
Proof.
  destruct (NewRunnerFunc_answers 0 bare "define" "/tmp/compose" false (a_run_func 7)
              (given 0) []) as (Hload & _ & _).
  apply (Hload tt (Wrap fs_ErrNotExist "read config" []) eq_refl).
Defined.

Lemma Auto_loop_in_order_witness :
  ∃ evs, Auto_loop 0 (sound []) (given 0) plain
           (steps (a_run_func 1) (a_run_func 2) (a_run_func 3) plain) []
         = Ret None evs ∧
    commands evs = [build_cmd (given 0); up_cmd (given 0);
                    build_cmd (given 0); up_cmd (given 0)].
Proof.
  destruct (Auto_loop_in_order 0 (sound []) (a_run_func 1) (a_run_func 2) (a_run_func 3)
              (given 0) plain []) as (evs & E & _ & Hn & _).
  exists evs. split; [|apply (Hn evs)]; vm_compute in E; by rewrite <- E.
Defined.

Lemma Auto_cleans_up_witness :
  ∃ tr, Auto 0 marker timing_out (a_run_func 1) (a_run_func 2) (a_run_func 3)
          (given 0) timed_conf [] = Ret (Some (New "alerts detected"
                                          [z_Any "alerts" ["high latency"; "missed duties"]]))
                                        tr ∧
    ∃ tr0, tr = tr0 ++ down_events context_Background "/tmp/compose" ++
                [EvCancel (context_WithTimeout (log_WithTopic (given 0) "auto")
                             60000000000)].
Proof.
  destruct (Auto_cleans_up 0 marker timing_out (a_run_func 1) (a_run_func 2)
              (a_run_func 3) (given 0) timed_conf []) as (looped & evs & E & H).
  vm_compute in E. injection E as <- <-. cbv zeta in H.
  match type of H with
  | match ?v with _ => _ end =>
      let v' := eval vm_compute in v in change v with v' in H
  end.
  cbv iota beta in H.
  eexists. split; [exact H|]. by eexists.
Defined.

Lemma Auto_verdict_on_alerts_witness :
  Auto_verdict marker (sound ["high latency"]) (given 0) plain [] =
    Ret None (build_events (given 0) "/tmp/compose" ++ up_events (given 0) "/tmp/compose" ++
              [EvLog Error_level (given 0) "Alerts couldn't be polled" []]).
Proof.
  destruct (Auto_verdict_on_alerts marker (sound ["high latency"]) (given 0) plain [])
    as (_ & _ & Hv).
  destruct (Hv None (build_events (given 0) "/tmp/compose" ++
                     up_events (given 0) "/tmp/compose") eq_refl) as [_ Hclosed].
  { by intros e [=]. }
  destruct (Hclosed ["high latency"] eq_refl) as (Hno & _ & _).
  rewrite (Hno eq_refl). by rewrite <- app_assoc.
Defined.

Lemma Auto_needs_config_witness :
  Auto 0 marker bare (a_run_func 1) (a_run_func 2) (a_run_func 3) (given 0) plain [] =
    Ret (Some (New "compose config.json not found; maybe try `compose new` first"
                 [z_Str "dir" "/tmp/compose"]))
        [EvLoadConfig "/tmp/compose"].
Proof.
  apply (Auto_needs_config 0 marker bare (a_run_func 1) (a_run_func 2) (a_run_func 3)
           (given 0) plain [] tt (Wrap fs_ErrNotExist "read config" []) eq_refl).
Defined.

End Compose.
